(** * pkg/cache: TTL- and memory-bounded key/value store, and its key builder

    A shallow embedding of [package cache] (type [Cache], its methods and
    [GenerateKey]) together with the properties the specification states
    about it.

    Conventions of the embedding:
    - [int64] fields and locals are [Z] with the two's-complement wrap-around
      written out ([wrap64]);
    - the Go map [c.items] is a [gmap string item]; a [for ... range] over it
      visits the entries in an order the runtime chooses, which is a
      parameter [range] of the development, constrained only to enumerate
      the map; what is proved holds for every such enumeration;
    - [time.Time] readings are instants on one clock, in nanoseconds, as [Z];
      a method call is taken to read the same instant [now] at each
      [time.Now()] it performs;
    - methods with a pointer receiver are computations in a state monad over
      [Cache]. *)

From Stdlib Require Import ZArith String Ascii List Lia.
From stdpp Require Import gmap strings list fin_maps sorting.

Local Open Scope Z_scope.

#[local] Set Warnings "-register-all".

(** ** crypto/md5 (RFC 1321), as used by [GenerateKey] *)

Module MD5.

Definition w32 (z : Z) : Z := z mod 2 ^ 32.

Definition not32 (x : Z) : Z := Z.lxor x 4294967295.

Definition rotl32 (x c : Z) : Z :=
  w32 (Z.lor (Z.shiftl x c) (Z.shiftr x (32 - c))).

Definition shifts : list Z :=
  [ 7; 12; 17; 22; 7; 12; 17; 22; 7; 12; 17; 22; 7; 12; 17; 22;
    5; 9; 14; 20; 5; 9; 14; 20; 5; 9; 14; 20; 5; 9; 14; 20;
    4; 11; 16; 23; 4; 11; 16; 23; 4; 11; 16; 23; 4; 11; 16; 23;
    6; 10; 15; 21; 6; 10; 15; 21; 6; 10; 15; 21; 6; 10; 15; 21 ].

(** [K[i] = floor (2^32 * |sin (i + 1)|)]. *)
Definition sines : list Z :=
  [ 3614090360; 3905402710; 606105819; 3250441966;
    4118548399; 1200080426; 2821735955; 4249261313;
    1770035416; 2336552879; 4294925233; 2304563134;
    1804603682; 4254626195; 2792965006; 1236535329;
    4129170786; 3225465664; 643717713; 3921069994;
    3593408605; 38016083; 3634488961; 3889429448;
    568446438; 3275163606; 4107603335; 1163531501;
    2850285829; 4243563512; 1735328473; 2368359562;
    4294588738; 2272392833; 1839030562; 4259657740;
    2763975236; 1272893353; 4139469664; 3200236656;
    681279174; 3936430074; 3572445317; 76029189;
    3654602809; 3873151461; 530742520; 3299628645;
    4096336452; 1126891415; 2878612391; 4237533241;
    1700485571; 2399980690; 4293915773; 2240044497;
    1873313359; 4264355552; 2734768916; 1309151649;
    4149444226; 3174756917; 718787259; 3951481745 ].

Definition nthZ (l : list Z) (i : nat) : Z := nth i l 0.

(** Little-endian encoding of [x] on [n] bytes, and decoding. *)
Fixpoint le_bytes (n : nat) (x : Z) : list Z :=
  match n with
  | O => []
  | S n' => x mod 256 :: le_bytes n' (x / 256)
  end.

Fixpoint le_word (bs : list Z) : Z :=
  match bs with
  | [] => 0
  | b :: bs' => b + 256 * le_word bs'
  end.

(** The message followed by 0x80, zeros up to 56 modulo 64, and the bit
    length on 8 bytes. *)
Definition pad (msg : list Z) : list Z :=
  let len := Z.of_nat (length msg) in
  let zeros := Z.to_nat ((55 - len) mod 64) in
  msg ++ 128 :: repeat 0 zeros ++ le_bytes 8 ((8 * len) mod 2 ^ 64).

Fixpoint words (n : nat) (bs : list Z) : list Z :=
  match n with
  | O => []
  | S n' => le_word (firstn 4 bs) :: words n' (skipn 4 bs)
  end.

Record digest_state := DS { sa : Z; sb : Z; sc : Z; sd : Z }.

Definition init : digest_state :=
  DS 1732584193 4023233417 2562383102 271733878.

Definition round (m : list Z) (i : nat) (s : digest_state) : digest_state :=
  let '(DS a b c d) := s in
  let q := (i / 16)%nat in
  let f :=
    match q with
    | 0%nat => Z.lor (Z.land b c) (Z.land (not32 b) d)
    | 1%nat => Z.lor (Z.land d b) (Z.land (not32 d) c)
    | 2%nat => Z.lxor (Z.lxor b c) d
    | _ => Z.lxor c (Z.lor b (not32 d))
    end in
  let g :=
    match q with
    | 0%nat => i
    | 1%nat => ((5 * i + 1) mod 16)%nat
    | 2%nat => ((3 * i + 5) mod 16)%nat
    | _ => ((7 * i) mod 16)%nat
    end in
  let f' := w32 (f + a + nthZ sines i + nthZ m g) in
  DS d (w32 (b + rotl32 f' (nthZ shifts i))) b c.

Definition block (s : digest_state) (chunk : list Z) : digest_state :=
  let m := words 16 chunk in
  let '(DS a b c d) := fold_left (fun st i => round m i st) (seq 0 64) s in
  DS (w32 (sa s + a)) (w32 (sb s + b)) (w32 (sc s + c)) (w32 (sd s + d)).

Fixpoint blocks (n : nat) (s : digest_state) (bs : list Z) : digest_state :=
  match n with
  | O => s
  | S n' => blocks n' (block s (firstn 64 bs)) (skipn 64 bs)
  end.

(** [md5.Sum]: the 16 bytes of the digest. *)
Definition Sum (msg : list Z) : list Z :=
  let p := pad msg in
  let '(DS a b c d) := blocks (length p / 64) init p in
  le_bytes 4 a ++ le_bytes 4 b ++ le_bytes 4 c ++ le_bytes 4 d.

End MD5.

(** ** GenerateKey *)

(** [[]byte(s)]: the bytes of a string. *)
Definition bytes_of_string (s : string) : list Z :=
  map (fun a => Z.of_N (N_of_ascii a)) (list_ascii_of_string s).

Definition hex_digit (d : Z) : ascii :=
  nth (Z.to_nat d) (list_ascii_of_string "0123456789abcdef") "0"%char.

(** [fmt.Sprintf("%x", hash)] on a byte array: two lower-case hexadecimal
    digits per byte. *)
Fixpoint sprintf_x (bs : list Z) : string :=
  match bs with
  | [] => EmptyString
  | b :: bs' => String (hex_digit (b / 16)) (String (hex_digit (b mod 16)) (sprintf_x bs'))
  end.

(** The loop [for _, comp := range components { combined += comp + "|" }]. *)
Definition combine (components : list string) : string :=
  fold_left (fun combined comp => combined +:+ (comp +:+ "|")) components ""%string.

Definition GenerateKey (components : list string) : string :=
  let combined := combine components in
  let hash := MD5.Sum (bytes_of_string combined) in
  sprintf_x hash.

(** ** 64-bit integers *)

(** The value of an [int64] computation whose mathematical result is [z]. *)
Definition wrap64 (z : Z) : Z := (z + 2 ^ 63) mod 2 ^ 64 - 2 ^ 63.

Definition add64 (a b : Z) : Z := wrap64 (a + b).
Definition sub64 (a b : Z) : Z := wrap64 (a - b).
Definition mul64 (a b : Z) : Z := wrap64 (a * b).

Definition int64_range (z : Z) : Prop := - 2 ^ 63 <= z < 2 ^ 63.

(** ** Cached values and their estimated size *)

(** What [estimateSize] can observe of an [interface{}] through [reflect]:
    the kind of the dynamic value, its length or number of fields, whether
    the elements of a slice or array are themselves interfaces, and the
    target of a pointer. *)
Inductive value : Type :=
  | VNil
  | VString (s : string)
  | VSlice (boxed : bool) (elems : list value)
  | VMap (entries : list (value * value))
  | VPtr (target : option value)
  | VStruct (fields : list value)
  | VOther (word : Z).

Definition len {A} (l : list A) : Z := Z.of_nat (length l).

(** [estimateSize]; the [default] branch is [unsafe.Sizeof(value)] for
    [value] of static type [interface{}], two words on a 64-bit target. *)
Fixpoint estimateSize (v : value) : Z :=
  match v with
  | VNil => 8
  | VString s => wrap64 (Z.of_nat (String.length s) + 16)
  | VSlice boxed elems =>
      let size := mul64 (len elems) 8 in
      let size := if (0 <? len elems) && boxed then mul64 size 4 else size in
      add64 size 24
  | VMap entries => mul64 (len entries) 32
  | VPtr None => 8
  | VPtr (Some e) => add64 8 (estimateSize e)
  | VStruct fields => mul64 (len fields) 16
  | VOther _ => 16
  end.

(** ** The store *)

Record item := Item {
  value_of : value;
  expiresAt : Z;
  size_of : Z
}.

Record Cache := MkCache {
  items : gmap string item;
  defaultTTL : Z;
  maxItems : Z;
  maxMemory : Z;
  currentSize : Z
}.

Definition set_items (m : gmap string item) (c : Cache) : Cache :=
  MkCache m (defaultTTL c) (maxItems c) (maxMemory c) (currentSize c).

Definition set_currentSize (n : Z) (c : Cache) : Cache :=
  MkCache (items c) (defaultTTL c) (maxItems c) (maxMemory c) n.

(** [len(c.items)] *)
Definition count (c : Cache) : Z := Z.of_nat (size (items c)).

(** [t.After(u)] *)
Definition After (t u : Z) : bool := u <? t.

(** The constructors; the [go c.cleanup()] they start is modelled by
    [cleanup] below, run at the instants of the ticker. *)
Definition New (ttl : Z) : Cache :=
  MkCache ∅ ttl 500 (100 * 1024 * 1024) 0.

Definition NewWithMaxItems (ttl : Z) (maxItems : Z) : Cache :=
  MkCache ∅ ttl maxItems (100 * 1024 * 1024) 0.

Definition NewWithMemoryLimit (ttl : Z) (maxMemoryMB : Z) : Cache :=
  MkCache ∅ ttl 10000 (mul64 (mul64 maxMemoryMB 1024) 1024) 0.

Definition NewWithoutCleanup (ttl : Z) : Cache :=
  MkCache ∅ ttl 500 (100 * 1024 * 1024) 0.

(** ** Methods on [*Cache] as state-passing computations *)

Definition M (A : Type) : Type := Cache -> A * Cache.

Definition ret {A} (a : A) : M A := fun c => (a, c).
Definition bind {A B} (m : M A) (k : A -> M B) : M B :=
  fun c => let '(a, c') := m c in k a c'.
Definition get : M Cache := fun c => (c, c).
Definition modify (f : Cache -> Cache) : M unit := fun c => (tt, f c).

Definition exec {A} (m : M A) (c : Cache) : Cache := snd (m c).
Definition eval {A} (m : M A) (c : Cache) : A := fst (m c).

Declare Scope cache_scope.
Delimit Scope cache_scope with cache.
Notation "x <- m ;; k" := (bind m (fun x => k))
  (at level 100, m at next level, right associativity) : cache_scope.
Notation "m ;;; k" := (bind m (fun _ => k))
  (at level 100, right associativity) : cache_scope.
Local Open Scope cache_scope.

(** [for _, x := range l { body x }] *)
Fixpoint for_each {A} (l : list A) (body : A -> M unit) : M unit :=
  match l with
  | [] => ret tt
  | x :: l' => body x ;;; for_each l' body
  end.

(** The statements [c.currentSize -= it.size; delete(c.items, key)]. *)
Definition remove_entry (key : string) (it : item) : M unit :=
  modify (fun c => set_items (delete key (items c))
                     (set_currentSize (sub64 (currentSize c) (size_of it)) c)).

(** The local [type keyItem struct { key string; item *item }] is a pair. *)
Abbreviation keyItem := (string * item)%type.

(** [if items[i].item.expiresAt.After(items[j].item.expiresAt)
       { items[i], items[j] = items[j], items[i] }] *)
Definition swap_if_after (i j : nat) (xs : list keyItem) : list keyItem :=
  match xs !! i, xs !! j with
  | Some a, Some b =>
      if After (expiresAt a.2) (expiresAt b.2) then <[j:=a]> (<[i:=b]> xs) else xs
  | _, _ => xs
  end.

(** [for j := ...; j < len(items); j++], with [n] iterations left. *)
Fixpoint sort_inner (n i j : nat) (xs : list keyItem) : list keyItem :=
  match n with
  | O => xs
  | S n' => sort_inner n' i (S j) (swap_if_after i j xs)
  end.

(** [for i := ...; i < len(items); i++], with [n] iterations left. *)
Fixpoint sort_outer (n i : nat) (xs : list keyItem) : list keyItem :=
  match n with
  | O => xs
  | S n' => sort_outer n' (S i) (sort_inner (length xs - S i) i (S i) xs)
  end.

(** The exchange sort shared by [evictOldest] and [evictOldestBySize]. *)
Definition sortByExpiry (xs : list keyItem) : list keyItem :=
  sort_outer (length xs) 0 xs.

(** The loop of [evictOldestBySize] over [items[i:]]. *)
Fixpoint free_loop (xs : list keyItem) (freedBytes target : Z) : M unit :=
  match xs with
  | [] => ret tt
  | ki :: rest =>
      if freedBytes <? target
      then remove_entry ki.1 ki.2 ;;;
           free_loop rest (add64 freedBytes (size_of ki.2)) target
      else ret tt
  end.

Definition MB : Z := 1024 * 1024.

(** The guard [c.maxItems > 0 && len(c.items) >= c.maxItems] of [Set]. *)
Definition atCapacity (c : Cache) : bool :=
  (0 <? maxItems c) && (maxItems c <=? count c).

(** The guard [c.maxMemory > 0 && c.currentSize+itemSize > c.maxMemory]. *)
Definition overMemory (itemSize : Z) (c : Cache) : bool :=
  (0 <? maxMemory c) && (maxMemory c <? add64 (currentSize c) itemSize).

(** [if existingItem, exists := c.items[key]; exists
       { c.currentSize -= existingItem.size }] *)
Definition discount_existing (key : string) : M unit :=
  c <- get ;;
  match items c !! key with
  | Some existingItem =>
      modify (set_currentSize (sub64 (currentSize c) (size_of existingItem)))
  | None => ret tt
  end.

(** [ttl] after [if ttl == 0 { ttl = c.defaultTTL }]. *)
Definition effective_ttl (ttl : Z) (c : Cache) : Z :=
  if ttl =? 0 then defaultTTL c else ttl.

Section Methods.

(** The order in which [for key, item := range c.items] yields the entries. *)
Variable range : gmap string item -> list keyItem.

Definition evictExpired (now : Z) : M unit :=
  c <- get ;;
  for_each (range (items c)) (fun '(key, it) =>
    if After now (expiresAt it) then remove_entry key it else ret tt).

(** [evictOldest]; the last loop, [for i := 0; i < count && i < len(items);
    i++], runs over the first [count] sorted entries. *)
Definition evictOldest (n : Z) : M unit :=
  if n <=? 0 then ret tt else
  c <- get ;;
  let sorted := sortByExpiry (range (items c)) in
  for_each (take (Z.to_nat n) sorted) (fun ki => remove_entry ki.1 ki.2).

Definition evictOldestBySize (targetBytesToFree : Z) : M unit :=
  if targetBytesToFree <=? 0 then ret tt else
  c <- get ;;
  let sorted := sortByExpiry (range (items c)) in
  free_loop sorted 0 targetBytesToFree.

Definition evictToFitMemory (newItemSize : Z) (now : Z) : M unit :=
  c <- get ;;
  let targetSize := sub64 (maxMemory c) newItemSize in
  evictExpired now ;;;
  c <- get ;;
  if targetSize <? currentSize c
  then evictOldestBySize (sub64 (currentSize c) targetSize)
  else ret tt.

(** [Set]; [now] is the reading of the clock during the call. In the branch
    that calls [evictOldest] one has [0 < maxItems <= len(c.items)], so the
    [int] expression [len(c.items) - c.maxItems + 1] cannot overflow. *)
Definition Set_ (key : string) (v : value) (ttl : Z) (now : Z) : M unit :=
  c <- get ;;
  let ttl := effective_ttl ttl c in
  (if atCapacity c
   then evictExpired now ;;;
        c <- get ;;
        if maxItems c <=? count c
        then evictOldest (count c - maxItems c + 1)
        else ret tt
   else ret tt) ;;;
  let itemSize := estimateSize v in
  discount_existing key ;;;
  c <- get ;;
  (if overMemory itemSize c
   then evictToFitMemory itemSize now
   else ret tt) ;;;
  let newItem := Item v (now + ttl) itemSize in
  modify (fun c => set_currentSize (add64 (currentSize c) itemSize)
                     (set_items (<[key:=newItem]> (items c)) c)).

Definition Get (key : string) (now : Z) : M (value * bool) :=
  c <- get ;;
  match items c !! key with
  | None => ret (VNil, false)
  | Some it =>
      if After now (expiresAt it) then ret (VNil, false)
      else ret (value_of it, true)
  end.

Definition Delete (key : string) : M unit :=
  c <- get ;;
  match items c !! key with
  | Some it => remove_entry key it
  | None => ret tt
  end.

Definition Clear : M unit :=
  modify (fun c => set_currentSize 0 (set_items ∅ c)).

(** One iteration of [for range ticker.C] in [cleanup], at instant [now]. *)
Definition cleanup_pass (now : Z) : M unit :=
  c <- get ;;
  for_each (range (items c)) (fun '(key, it) =>
    if After now (expiresAt it)
    then modify (fun c => set_items (delete key (items c)) c)
    else ret tt).

(** [cleanup] over the instants at which the ticker fires. *)
Definition cleanup (ticks : list Z) : M unit :=
  for_each ticks cleanup_pass.

(** [Stats]; integer division in Go truncates towards zero. *)
Definition Stats (now : Z) : M (gmap string Z) :=
  c <- get ;;
  let expired :=
    fold_left (fun expired '(_, it) =>
                 if After now (expiresAt it) then expired + 1 else expired)
              (range (items c)) 0 in
  ret (<["total_items" := count c]>
       (<["expired_items" := expired]>
       (<["active_items" := count c - expired]>
       (<["memory_used_mb" := currentSize c ÷ MB]>
       (<["memory_limit_mb" := maxMemory c ÷ MB]>
       (<["memory_used_bytes" := currentSize c]> ∅)))))).

End Methods.

(** ** Expiration and accounting *)

(** An entry is past expiration when the clock is strictly after it, which
    is what [now.After(item.expiresAt)] tests everywhere. *)
Definition expired (now : Z) (it : item) : Prop := expiresAt it < now.

#[global] Instance expired_dec now it : Decision (expired now it) :=
  Z_lt_dec (expiresAt it) now.

Definition unexpired (now : Z) (ki : keyItem) : Prop := ¬ expired now ki.2.

(** The sum of the estimated sizes of the stored entries. *)
Definition stored_bytes (m : gmap string item) : Z :=
  map_fold (fun _ it acc => size_of it + acc) 0 m.

(** The running total agrees with the stored entries: it is their sum,
    computed on 64 bits. *)
Definition accounted (c : Cache) : Prop :=
  currentSize c = wrap64 (stored_bytes (items c)).

(** The running total is exactly the sum of the stored sizes, no size is
    negative, and the total is a 64-bit value. *)
Definition well_accounted (c : Cache) : Prop :=
  currentSize c = stored_bytes (items c) ∧
  int64_range (currentSize c) ∧
  ∀ k it, items c !! k = Some it → 0 <= size_of it.

(** ** The exchange sort, by structure

    One run of the inner loop carries the element at position [i] along the
    rest of the slice and leaves the earliest-expiring one at [i]. *)

Fixpoint pass (x : keyItem) (rest : list keyItem) : keyItem * list keyItem :=
  match rest with
  | [] => (x, [])
  | y :: r =>
      if After (expiresAt x.2) (expiresAt y.2)
      then let '(m, r') := pass y r in (m, x :: r')
      else let '(m, r') := pass x r in (m, y :: r')
  end.

Fixpoint selection (n : nat) (l : list keyItem) : list keyItem :=
  match n, l with
  | S n', x :: rest => let '(m, r') := pass x rest in m :: selection n' r'
  | _, _ => l
  end.

(** Entries ordered by expiration, earliest first. *)
Definition expires_le (a b : keyItem) : Prop := expiresAt a.2 <= expiresAt b.2.

(** No two entries of the map expire at the same instant. *)
Definition distinct_expiry (m : gmap string item) : Prop :=
  ∀ k1 k2 it1 it2,
    m !! k1 = Some it1 → m !! k2 = Some it2 →
    expiresAt it1 = expiresAt it2 → k1 = k2.

(** ** What the eviction loops compute

    Each loop removes a list of entries from the map and debits their sizes
    one after the other. *)

Definition remove_all (l : list keyItem) : M unit :=
  for_each l (fun ki => remove_entry ki.1 ki.2).

Definition delete_keys (l : list keyItem) (m : gmap string item) : gmap string item :=
  foldl (fun m ki => delete ki.1 m) m l.

Definition debit (l : list keyItem) (cs : Z) : Z :=
  foldl (fun cs ki => sub64 cs (size_of ki.2)) cs l.

Definition total_size (l : list keyItem) : Z :=
  foldr (fun ki acc => size_of ki.2 + acc) 0 l.

Definition evicted (l : list keyItem) (c : Cache) : Cache :=
  set_items (delete_keys l (items c)) (set_currentSize (debit l (currentSize c)) c).

(** The entries [free_loop] removes. *)
Fixpoint freed_prefix (xs : list keyItem) (freedBytes target : Z) : list keyItem :=
  match xs with
  | [] => []
  | ki :: rest =>
      if freedBytes <? target
      then ki :: freed_prefix rest (add64 freedBytes (size_of ki.2)) target
      else []
  end.

(** A step that only removes entries and debits the running total. *)
Definition shrinks (c c' : Cache) : Prop :=
  items c' ⊆ items c ∧ defaultTTL c' = defaultTTL c ∧
  maxItems c' = maxItems c ∧ maxMemory c' = maxMemory c.

(** ** Scenarios of the specification's section 8 *)

(** Four distinct keys written one after the other, at instants 1 to 4 with
    the default lifetime, into a store holding at most three items. *)
Definition four_inserts (range : gmap string item → list keyItem) : M unit :=
  Set_ range "k1" (VString "v1") 0 1 ;;;
  Set_ range "k2" (VString "v2") 0 2 ;;;
  Set_ range "k3" (VString "v3") 0 3 ;;;
  Set_ range "k4" (VString "v4") 0 4.

(** A string of 24 bytes, estimated at 40 bytes. *)
Definition v40_text : string := "0123456789abcdefghijklmn".
Definition v40 : value := VString v40_text.

(** A store bounded to 100 bytes (and 500 items, as [New] has it). *)
Definition store100 : Cache := MkCache ∅ 60 500 100 0.

(** Three values of 40 bytes under [a], [b], [c], [a] expiring soonest. *)
Definition three_inserts (range : gmap string item → list keyItem) : M unit :=
  Set_ range "a" v40 10 0 ;;;
  Set_ range "b" v40 20 0 ;;;
  Set_ range "c" v40 30 0.

(** A store with neither an item bound nor a memory bound. *)
Definition unbounded : Cache := MkCache ∅ 60 0 0 0.

(** A struct of seven fields, estimated at 112 bytes. *)
Definition v112 : value := VStruct [VNil; VNil; VNil; VNil; VNil; VNil; VNil].

(** A store holding at most two items, with no memory bound. *)
Definition at_most_two : Cache := MkCache ∅ 60 2 0 0.

(** ** Sequences of operations *)

(** A call on the store; each is run at the instant the clock shows. *)
Inductive op : Type :=
  | OpSet (key : string) (v : value) (ttl : Z)
  | OpGet (key : string)
  | OpDelete (key : string)
  | OpClear
  | OpStats.

Definition run_op (range : gmap string item → list keyItem)
    (now : Z) (o : op) : M unit :=
  match o with
  | OpSet key v ttl => Set_ range key v ttl now
  | OpGet key => _ <- Get key now ;; ret tt
  | OpDelete key => Delete key
  | OpClear => Clear
  | OpStats => _ <- Stats range now ;; ret tt
  end.

Definition run_ops (range : gmap string item → list keyItem)
    (calls : list (Z * op)) : M unit :=
  for_each calls (fun '(now, o) => run_op range now o).

(** An entry that no sweep among [ticks] finds past expiration. *)
Definition survives (ticks : list Z) (ki : keyItem) : Prop :=
  Forall (λ t, unexpired t ki) ticks.

#[global] Instance survives_dec ticks ki : Decision (survives ticks ki).
Proof. unfold survives, unexpired. apply _. Defined.

(** ** Values of ordinary size *)

(** Every length [estimateSize] reads is below [2^32]. *)
Fixpoint modest (v : value) : Prop :=
  match v with
  | VString s => Z.of_nat (String.length s) < 2 ^ 32
  | VSlice _ elems => len elems < 2 ^ 32
  | VMap entries => len entries < 2 ^ 32
  | VStruct fields => len fields < 2 ^ 32
  | VPtr (Some e) => modest e
  | _ => True
  end.

(** The number of pointers to follow before reaching a non-pointer or nil. *)
Fixpoint indirections (v : value) : Z :=
  match v with
  | VPtr (Some e) => 1 + indirections e
  | _ => 0
  end.

(** ** Components of a key *)

(** The separator does not occur in the string. *)
Fixpoint no_bar (s : string) : Prop :=
  match s with
  | EmptyString => True
  | String a s' => a ≠ "|"%char ∧ no_bar s'
  end.

(** The concatenation [GenerateKey] hashes, from the left. *)
Fixpoint joined (components : list string) : string :=
  match components with
  | [] => ""
  | comp :: rest => comp +:+ String "|" (joined rest)
  end.

Definition hex_digits : list ascii := list_ascii_of_string "0123456789abcdef".

(** Calls on a store without a memory bound, a replacement among them. *)
Definition sample_calls : list (Z * op) :=
  [(0, OpSet "a" v40 10); (1, OpSet "b" v40 10); (2, OpSet "a" v112 10);
   (3, OpGet "a"); (4, OpDelete "b"); (5, OpStats)].

(** ** The estimate over the integers *)

(** The arithmetic of [estimateSize] carried out on unbounded integers, that
    is, what each branch computes when no 64-bit operation wraps. *)
Fixpoint estimate_exact (v : value) : Z :=
  match v with
  | VNil => 8
  | VString s => Z.of_nat (String.length s) + 16
  | VSlice boxed elems =>
      (if (0 <? len elems) && boxed then len elems * 8 * 4 else len elems * 8)
      + 24
  | VMap entries => len entries * 32
  | VPtr None => 8
  | VPtr (Some e) => 8 + estimate_exact e
  | VStruct fields => len fields * 16
  | VOther _ => 16
  end.

(** ** Runs on a store built by [NewWithMemoryLimit(ttl, 1)] *)

(** A [[]interface{}] of [n] nil elements, estimated at [32 n + 24] bytes. *)
Definition boxed_slice (n : nat) : value := VSlice true (repeat VNil n).

(** 400024 and 704024 bytes by the estimate; the bound is 1048576. *)
Definition v400k : value := boxed_slice (125 * 100).
Definition v704k : value := boxed_slice (220 * 100).

(** * Properties *)

(** ** Arithmetic on [int64] *)

Lemma wrap64_range z : int64_range (wrap64 z).
Proof.
  unfold int64_range, wrap64.
  pose proof (Z.mod_pos_bound (z + 2 ^ 63) (2 ^ 64) ltac:(lia)). lia.
Qed.

Lemma wrap64_id z : int64_range z → wrap64 z = z.
Proof.
  unfold int64_range, wrap64. intros H.
  rewrite Z.mod_small by lia. lia.
Qed.

Lemma wrap64_add_l a b : wrap64 (wrap64 a + b) = wrap64 (a + b).
Proof.
  unfold wrap64.
  replace ((a + 2 ^ 63) mod 2 ^ 64 - 2 ^ 63 + b + 2 ^ 63)
    with ((a + 2 ^ 63) mod 2 ^ 64 + b) by lia.
  rewrite Zplus_mod_idemp_l. do 2 f_equal. lia.
Qed.

Lemma wrap64_add_r a b : wrap64 (a + wrap64 b) = wrap64 (a + b).
Proof. rewrite (Z.add_comm a), wrap64_add_l. f_equal. lia. Qed.

Lemma wrap64_sub_l a b : wrap64 (wrap64 a - b) = wrap64 (a - b).
Proof. unfold Z.sub. apply wrap64_add_l. Qed.

Lemma wrap64_idemp a : wrap64 (wrap64 a) = wrap64 a.
Proof. apply wrap64_id, wrap64_range. Qed.

(** ** The exchange sort *)

Lemma pass_length x rest : length (pass x rest).2 = length rest.
Proof.
  revert x. induction rest as [|y r IH]; intros x; simpl; [done|].
  destruct (After _ _).
  - specialize (IH y). destruct (pass y r). simpl in *. lia.
  - specialize (IH x). destruct (pass x r). simpl in *. lia.
Qed.

Lemma pass_perm x rest : (pass x rest).1 :: (pass x rest).2 ≡ₚ x :: rest.
Proof.
  revert x. induction rest as [|y r IH]; intros x; simpl; [done|].
  destruct (After _ _).
  - specialize (IH y). destruct (pass y r) as [m r']. simpl in *.
    by rewrite (Permutation_swap x m r'), IH.
  - specialize (IH x). destruct (pass x r) as [m r']. simpl in *.
    rewrite (Permutation_swap y m r'), IH. apply Permutation_swap.
Qed.

Lemma pass_min x rest :
  expires_le (pass x rest).1 x ∧ Forall (expires_le (pass x rest).1) (pass x rest).2.
Proof.
  revert x. induction rest as [|y r IH]; intros x; simpl.
  { split; [unfold expires_le; lia | constructor]. }
  unfold After. destruct (Z.ltb_spec (expiresAt y.2) (expiresAt x.2)) as [Hlt|Hge].
  - destruct (IH y) as [H1 H2]. destruct (pass y r) as [m r']. simpl in *.
    unfold expires_le in *. split; [lia|]. constructor; [lia | done].
  - destruct (IH x) as [H1 H2]. destruct (pass x r) as [m r']. simpl in *.
    unfold expires_le in *. split; [lia|]. constructor; [lia | done].
Qed.

Lemma selection_perm n l : selection n l ≡ₚ l.
Proof.
  revert l. induction n as [|n IH]; intros [|x rest]; simpl; try done.
  pose proof (pass_perm x rest) as Hp. destruct (pass x rest) as [m r'].
  simpl in *. by rewrite IH.
Qed.

Lemma selection_sorted n l :
  length l = n → StronglySorted expires_le (selection n l).
Proof.
  revert l. induction n as [|n IH]; intros [|x rest] Hlen; simpl in *;
    try done; try constructor.
  pose proof (pass_min x rest) as [_ Hmin].
  pose proof (pass_length x rest) as Hl.
  destruct (pass x rest) as [m r']. simpl in *.
  constructor; [apply IH; lia|].
  by rewrite selection_perm.
Qed.

Lemma sort_inner_pass pre x r1 r2 :
  sort_inner (length r2) (length pre) (length pre + 1 + length r1)%nat
             (pre ++ x :: r1 ++ r2)
  = pre ++ (pass x r2).1 :: r1 ++ (pass x r2).2.
Proof.
  revert x r1. induction r2 as [|y r IH]; intros x r1; simpl; [done|].
  unfold swap_if_after.
  rewrite list_lookup_middle by done.
  replace (pre ++ x :: r1 ++ y :: r) with ((pre ++ x :: r1) ++ y :: r)
    by (by rewrite <- app_assoc).
  rewrite (list_lookup_middle (pre ++ x :: r1) r y)
    by (rewrite length_app; simpl; lia).
  destruct (After _ _).
  - replace (<[(length pre + 1 + length r1)%nat:=x]>
               (<[length pre:=y]> ((pre ++ x :: r1) ++ y :: r)))
      with (pre ++ y :: (r1 ++ [x]) ++ r).
    2:{ rewrite <- (app_assoc pre).
        replace (length pre) with (length pre + 0)%nat at 2 by lia.
        rewrite insert_app_r. simpl.
        replace (length pre + 1 + length r1)%nat
          with (length pre + S (length r1 + 0))%nat by lia.
        rewrite insert_app_r. simpl. rewrite insert_app_r. simpl.
        by rewrite <- app_assoc. }
    specialize (IH y (r1 ++ [x])).
    rewrite length_app in IH. simpl in IH.
    replace (S (length pre + 1 + length r1))
      with (length pre + 1 + (length r1 + 1))%nat by lia.
    rewrite IH. destruct (pass y r) as [m r']. simpl.
    by rewrite <- app_assoc.
  - replace ((pre ++ x :: r1) ++ y :: r) with (pre ++ x :: (r1 ++ [y]) ++ r)
      by (by rewrite <- !app_assoc).
    specialize (IH x (r1 ++ [y])).
    rewrite length_app in IH. simpl in IH.
    replace (S (length pre + 1 + length r1))
      with (length pre + 1 + (length r1 + 1))%nat by lia.
    rewrite IH. destruct (pass x r) as [m r']. simpl.
    by rewrite <- app_assoc.
Qed.

Lemma sort_outer_selection n pre l :
  length l = n →
  sort_outer n (length pre) (pre ++ l) = pre ++ selection n l.
Proof.
  revert pre l. induction n as [|n IH]; intros pre [|x rest] Hlen;
    simpl in *; try done.
  replace (length (pre ++ x :: rest) - S (length pre))%nat with (length rest)
    by (rewrite length_app; simpl; lia).
  pose proof (sort_inner_pass pre x [] rest) as Hin. simpl in Hin.
  replace (length pre + 1 + 0)%nat with (S (length pre)) in Hin by lia.
  rewrite Hin.
  pose proof (pass_length x rest) as Hl.
  destruct (pass x rest) as [m r']. simpl in *.
  specialize (IH (pre ++ [m]) r').
  rewrite length_app in IH. simpl in IH.
  replace (S (length pre)) with (length pre + 1)%nat by lia.
  replace (pre ++ m :: r') with ((pre ++ [m]) ++ r') by (by rewrite <- app_assoc).
  rewrite IH by lia. by rewrite <- app_assoc.
Qed.

Lemma sortByExpiry_selection xs : sortByExpiry xs = selection (length xs) xs.
Proof. apply (sort_outer_selection (length xs) [] xs). done. Qed.

Lemma sortByExpiry_perm xs : sortByExpiry xs ≡ₚ xs.
Proof. rewrite sortByExpiry_selection. apply selection_perm. Qed.

Lemma sortByExpiry_sorted xs : StronglySorted expires_le (sortByExpiry xs).
Proof. rewrite sortByExpiry_selection. by apply selection_sorted. Qed.

(** ** The eviction loops *)

Lemma After_spec t u : After t u = true ↔ u < t.
Proof. unfold After. apply Z.ltb_lt. Qed.

Lemma After_false t u : After t u = false ↔ t <= u.
Proof. unfold After. apply Z.ltb_ge. Qed.

Lemma remove_all_run l c : remove_all l c = (tt, evicted l c).
Proof.
  revert c. induction l as [|[k it] l IH]; intros c.
  - by destruct c.
  - unfold remove_all in *. simpl. unfold bind at 1. simpl. by rewrite IH.
Qed.

Lemma for_each_filter (P : item → Prop) `{!∀ it, Decision (P it)}
    (b : item → bool) (l : list keyItem) c :
  (∀ it, b it = true ↔ P it) →
  for_each l (fun '(key, it) => if b it then remove_entry key it else ret tt) c
  = remove_all (filter (λ ki, P ki.2) l) c.
Proof.
  intros Hb. revert c. induction l as [|[k it] l IH]; intros c; [done|].
  rewrite filter_cons. simpl. unfold bind at 1.
  destruct (decide (P it)) as [HP|HP].
  - apply Hb in HP as ->. unfold remove_all at 1. simpl. unfold bind at 1.
    simpl. apply IH.
  - destruct (b it) eqn:E; [by apply Hb in E|]. simpl. apply IH.
Qed.

Lemma free_loop_run xs freed target c :
  free_loop xs freed target c = (tt, evicted (freed_prefix xs freed target) c).
Proof.
  revert freed c. induction xs as [|[k it] xs IH]; intros freed c; simpl.
  - by destruct c.
  - destruct (freed <? target); [|by destruct c].
    unfold bind. simpl. by rewrite IH.
Qed.

Section Runs.

Variable range : gmap string item → list keyItem.

Lemma evictExpired_run now c :
  evictExpired range now c
  = (tt, evicted (filter (λ ki, expired now ki.2) (range (items c))) c).
Proof.
  unfold evictExpired, bind, get.
  rewrite (for_each_filter (expired now)); [apply remove_all_run|].
  intros it. apply After_spec.
Qed.

Lemma evictOldest_run n c :
  evictOldest range n c
  = (tt, if n <=? 0 then c
         else evicted (take (Z.to_nat n) (sortByExpiry (range (items c)))) c).
Proof.
  unfold evictOldest. destruct (n <=? 0); [done|].
  unfold bind, get. apply remove_all_run.
Qed.

Lemma evictOldestBySize_run target c :
  evictOldestBySize range target c
  = (tt, if target <=? 0 then c
         else evicted (freed_prefix (sortByExpiry (range (items c))) 0 target) c).
Proof.
  unfold evictOldestBySize. destruct (target <=? 0); [done|].
  unfold bind, get. apply free_loop_run.
Qed.

End Runs.

(** ** Removing entries from the map *)

Lemma delete_keys_cons ki l (m : gmap string item) :
  delete_keys (ki :: l) m = delete_keys l (delete ki.1 m).
Proof. reflexivity. Qed.

Lemma delete_keys_lookup l (m : gmap string item) k :
  delete_keys l m !! k = if decide (k ∈ l.*1) then None else m !! k.
Proof.
  revert m. induction l as [|[k' it] l IH]; intros m.
  - by rewrite decide_False by apply not_elem_of_nil.
  - rewrite delete_keys_cons, IH, fmap_cons. simpl.
    destruct (decide (k ∈ l.*1)) as [Hin|Hnin].
    + by rewrite decide_True by (by right).
    + destruct (decide (k = k')) as [->|Hne].
      * rewrite lookup_delete_eq. by rewrite decide_True by left.
      * rewrite lookup_delete_ne by done.
        rewrite decide_False; [done|]. by intros [?|?]%elem_of_cons.
Qed.

Lemma delete_keys_subseteq l (m : gmap string item) : delete_keys l m ⊆ m.
Proof.
  apply map_subseteq_spec. intros k it. rewrite delete_keys_lookup.
  by destruct (decide _).
Qed.

Lemma debit_wrap l a : debit l (wrap64 a) = wrap64 (a - total_size l).
Proof.
  revert a. induction l as [|[k it] l IH]; intros a; simpl.
  - f_equal. lia.
  - unfold sub64. rewrite wrap64_sub_l, IH. f_equal. lia.
Qed.

Lemma debit_cons_wrap ki l cs :
  debit (ki :: l) cs = wrap64 (cs - total_size (ki :: l)).
Proof. simpl. unfold sub64. rewrite debit_wrap. f_equal. lia. Qed.

Lemma debit_range l cs : int64_range cs → debit l cs = wrap64 (cs - total_size l).
Proof. intros H. rewrite <- (wrap64_id cs) at 1 by done. apply debit_wrap. Qed.

Lemma stored_bytes_empty : stored_bytes ∅ = 0.
Proof. apply map_fold_empty. Qed.

Lemma stored_bytes_insert (m : gmap string item) k it :
  m !! k = None → stored_bytes (<[k:=it]> m) = size_of it + stored_bytes m.
Proof.
  intros H. unfold stored_bytes.
  rewrite map_fold_insert_L; [done | intros; lia | done].
Qed.

Lemma stored_bytes_delete (m : gmap string item) k it :
  m !! k = Some it → stored_bytes (delete k m) = stored_bytes m - size_of it.
Proof.
  intros H. rewrite <- (insert_delete_id m k it) at 2 by done.
  rewrite stored_bytes_insert by apply lookup_delete_eq. lia.
Qed.

Lemma stored_bytes_delete_keys l (m : gmap string item) :
  NoDup l.*1 → (∀ k it, (k, it) ∈ l → m !! k = Some it) →
  stored_bytes (delete_keys l m) = stored_bytes m - total_size l.
Proof.
  revert m. induction l as [|[k it] l IH]; intros m Hnd Hin; simpl.
  { lia. }
  inv Hnd. rewrite IH; [|done|].
  - rewrite (stored_bytes_delete m k it) by (apply Hin; left). lia.
  - intros k' it' H'. rewrite lookup_delete_ne; [apply Hin; by right|].
    intros ->. match goal with H : _ ∉ _ |- _ => apply H end.
    apply list_elem_of_fmap. by exists (k', it').
Qed.

(** ** Running computations *)

Lemma run_unit (m : M unit) c : m c = (tt, exec m c).
Proof. unfold exec. by destruct (m c) as [[] c']. Qed.

Lemma exec_seq {B} (m : M unit) (k : M B) c :
  exec (m ;;; k) c = exec k (exec m c).
Proof. unfold exec at 1, bind. by rewrite (run_unit m c). Qed.

Lemma eval_seq {B} (m : M unit) (k : M B) c :
  eval (m ;;; k) c = eval k (exec m c).
Proof. unfold eval at 1, bind. by rewrite (run_unit m c). Qed.

Lemma exec_get {B} (k : Cache → M B) c : exec (x <- get ;; k x) c = exec (k c) c.
Proof. reflexivity. Qed.

Lemma exec_modify f c : exec (modify f) c = f c.
Proof. reflexivity. Qed.

Lemma exec_ret {A} (a : A) c : exec (ret a) c = c.
Proof. reflexivity. Qed.

Lemma shrinks_refl c : shrinks c c.
Proof. by repeat split. Qed.

Lemma shrinks_trans c1 c2 c3 : shrinks c1 c2 → shrinks c2 c3 → shrinks c1 c3.
Proof.
  intros (H1 & H2 & H3 & H4) (H1' & H2' & H3' & H4'). repeat split.
  - by etrans. 
  - congruence. 
  - congruence. 
  - congruence.
Qed.

Lemma shrinks_evicted l c : shrinks c (evicted l c).
Proof. repeat split. apply delete_keys_subseteq. Qed.

Section Shrinking.

Variable range : gmap string item → list keyItem.

Lemma exec_evictExpired now c :
  exec (evictExpired range now) c
  = evicted (filter (λ ki, expired now ki.2) (range (items c))) c.
Proof. unfold exec. by rewrite evictExpired_run. Qed.

Lemma exec_evictOldest n c :
  exec (evictOldest range n) c
  = if n <=? 0 then c
    else evicted (take (Z.to_nat n) (sortByExpiry (range (items c)))) c.
Proof. unfold exec. by rewrite evictOldest_run. Qed.

Lemma exec_evictOldestBySize target c :
  exec (evictOldestBySize range target) c
  = if target <=? 0 then c
    else evicted (freed_prefix (sortByExpiry (range (items c))) 0 target) c.
Proof. unfold exec. by rewrite evictOldestBySize_run. Qed.

Lemma exec_evictToFitMemory newItemSize now c :
  exec (evictToFitMemory range newItemSize now) c
  = let targetSize := sub64 (maxMemory c) newItemSize in
    let c1 := exec (evictExpired range now) c in
    if targetSize <? currentSize c1
    then exec (evictOldestBySize range (sub64 (currentSize c1) targetSize)) c1
    else c1.
Proof.
  unfold evictToFitMemory. rewrite exec_get, exec_seq, exec_get. simpl.
  by destruct (_ <? _).
Qed.

Lemma exec_discount_existing key c :
  exec (discount_existing key) c
  = match items c !! key with
    | Some existingItem =>
        set_currentSize (sub64 (currentSize c) (size_of existingItem)) c
    | None => c
    end.
Proof. unfold discount_existing. rewrite exec_get. by destruct (items c !! key). Qed.

Lemma exec_Set key v ttl now c :
  exec (Set_ range key v ttl now) c
  = let c1 :=
      if atCapacity c
      then let c' := exec (evictExpired range now) c in
           if maxItems c' <=? count c'
           then exec (evictOldest range (count c' - maxItems c' + 1)) c'
           else c'
      else c in
    let c2 := exec (discount_existing key) c1 in
    let c3 :=
      if overMemory (estimateSize v) c2
      then exec (evictToFitMemory range (estimateSize v) now) c2
      else c2 in
    set_currentSize (add64 (currentSize c3) (estimateSize v))
      (set_items (<[key:=Item v (now + effective_ttl ttl c) (estimateSize v)]>
                    (items c3)) c3).
Proof.
  unfold Set_. rewrite exec_get, exec_seq, exec_seq, exec_get, exec_seq.
  rewrite exec_modify. simpl.
  assert (exec (if atCapacity c
                then evictExpired range now;;;
                     c0 <- get;;
                     (if maxItems c0 <=? count c0
                      then evictOldest range (count c0 - maxItems c0 + 1)
                      else ret ())
                else ret ()) c
          = if atCapacity c
            then let c' := exec (evictExpired range now) c in
                 if maxItems c' <=? count c'
                 then exec (evictOldest range (count c' - maxItems c' + 1)) c'
                 else c'
            else c) as ->.
  { destruct (atCapacity c); [|done].
    rewrite exec_seq, exec_get. simpl. by destruct (_ <=? _). }
  by destruct (overMemory _ _).
Qed.

Lemma shrinks_evictExpired now c : shrinks c (exec (evictExpired range now) c).
Proof. rewrite exec_evictExpired. apply shrinks_evicted. Qed.

Lemma shrinks_evictOldest n c : shrinks c (exec (evictOldest range n) c).
Proof.
  rewrite exec_evictOldest. destruct (_ <=? _);
    [apply shrinks_refl | apply shrinks_evicted].
Qed.

Lemma shrinks_evictOldestBySize t c :
  shrinks c (exec (evictOldestBySize range t) c).
Proof.
  rewrite exec_evictOldestBySize. destruct (_ <=? _);
    [apply shrinks_refl | apply shrinks_evicted].
Qed.

Lemma shrinks_evictToFitMemory sz now c :
  shrinks c (exec (evictToFitMemory range sz now) c).
Proof.
  rewrite exec_evictToFitMemory. simpl. destruct (_ <? _).
  - eapply shrinks_trans; [apply shrinks_evictExpired|].
    apply shrinks_evictOldestBySize.
  - apply shrinks_evictExpired.
Qed.

Lemma shrinks_discount_existing key c :
  shrinks c (exec (discount_existing key) c).
Proof.
  rewrite exec_discount_existing. destruct (items c !! key); by repeat split.
Qed.

(** [Set] ends by inserting the new entry into what the evictions left. *)
Lemma Set_inserts key v ttl now c :
  ∃ c3, shrinks c c3 ∧
    exec (Set_ range key v ttl now) c
    = set_currentSize (add64 (currentSize c3) (estimateSize v))
        (set_items (<[key:=Item v (now + effective_ttl ttl c) (estimateSize v)]>
                      (items c3)) c3).
Proof.
  rewrite exec_Set. cbv zeta.
  match goal with
  | |- context [exec (discount_existing key) ?c1] =>
      assert (shrinks c c1) as H1;
      [| pose proof (shrinks_discount_existing key c1) as H2;
         set (c2 := exec (discount_existing key) c1) in * ]
  end.
  { destruct (atCapacity c); [|apply shrinks_refl].
    destruct (maxItems _ <=? count _); [|apply shrinks_evictExpired].
    eapply shrinks_trans; [apply shrinks_evictExpired|apply shrinks_evictOldest]. }
  exists (if overMemory (estimateSize v) c2
          then exec (evictToFitMemory range (estimateSize v) now) c2 else c2).
  split; [|reflexivity].
  eapply shrinks_trans; [exact H1|]. eapply shrinks_trans; [exact H2|].
  destruct (overMemory _ _); [apply shrinks_evictToFitMemory|apply shrinks_refl].
Qed.

End Shrinking.

(** ** Enumerations of the map *)

Lemma map_to_list_filter_perm (P : keyItem → Prop) `{!∀ x, Decision (P x)}
    (m : gmap string item) :
  map_to_list (filter P m) ≡ₚ filter P (map_to_list m).
Proof.
  apply NoDup_Permutation.
  - apply NoDup_map_to_list.
  - apply NoDup_filter, NoDup_map_to_list.
  - intros [k it]. rewrite elem_of_map_to_list, map_lookup_filter_Some.
    rewrite list_elem_of_filter, elem_of_map_to_list. tauto.
Qed.

Lemma count_expired_fold now (l : list keyItem) acc :
  fold_left (fun expired '(_, it) =>
               if After now (expiresAt it) then expired + 1 else expired) l acc
  = acc + Z.of_nat (length (filter (λ ki : keyItem, expired now ki.2) l)).
Proof.
  revert acc. induction l as [|[k it] l IH]; intros acc; simpl; [lia|].
  rewrite IH, filter_cons. simpl. unfold After.
  destruct (Z.ltb_spec (expiresAt it) now) as [Hlt|Hge].
  - rewrite decide_True by done. simpl. lia.
  - rewrite decide_False by (unfold expired; lia). lia.
Qed.

(** ** The key builder *)

(** The test suite of RFC 1321, section A.5. *)
Example md5_rfc1321_suite :
  sprintf_x (MD5.Sum (bytes_of_string ""))
  = "d41d8cd98f00b204e9800998ecf8427e"%string ∧
  sprintf_x (MD5.Sum (bytes_of_string "abc"))
  = "900150983cd24fb0d6963f7d28e17f72"%string ∧
  sprintf_x (MD5.Sum (bytes_of_string "message digest"))
  = "f96b697d7cb7938d525a2f31aaf161d0"%string ∧
  sprintf_x (MD5.Sum (bytes_of_string
    "12345678901234567890123456789012345678901234567890123456789012345678901234567890"))
  = "57edf4a22be3c955ac49da2e2107b67a"%string.
Proof. by vm_compute. Qed.

Example GenerateKey_roleA :
  GenerateKey ["SELECT 1"; "conn://x"; "roleA"]%string
  = "47286ef44e40d9584a20c50edf964d7f"%string.
Proof. by vm_compute. Qed.

Example GenerateKey_roleB :
  GenerateKey ["SELECT 1"; "conn://x"; "roleB"]%string
  = "ac745bf012986349d66b20ff0b28b753"%string.
Proof. by vm_compute. Qed.


(** C1. Role isolation of the key builder: the fingerprints of
    ("SELECT 1", "conn://x", "roleA") and ("SELECT 1", "conn://x", "roleB")
    differ, so two roles issuing the same statement over the same connection
    get distinct cache keys. *)
Theorem GenerateKey_role_isolation :
  GenerateKey ["SELECT 1"; "conn://x"; "roleA"]%string
  ≠ GenerateKey ["SELECT 1"; "conn://x"; "roleB"]%string.
Proof. intros H. vm_compute in H. discriminate H. Qed.

(** C10. Separator ambiguity of the key builder: the distinct component lists
    ["a|"; "b"] and ["a"; "|b"] are concatenated to the same string before
    hashing, hence have the same fingerprint whatever the hash function. *)
Theorem GenerateKey_separator_ambiguity :
  ["a|"; "b"]%string ≠ ["a"; "|b"]%string ∧
  combine ["a|"; "b"]%string = combine ["a"; "|b"]%string ∧
  GenerateKey ["a|"; "b"]%string = GenerateKey ["a"; "|b"]%string.
Proof.
  split; [discriminate|].
  assert (combine ["a|"; "b"]%string = combine ["a"; "|b"]%string) as E
    by reflexivity.
  split; [exact E|]. unfold GenerateKey. by rewrite E.
Qed.

(** ** Reads *)

(** C9. [Stats] is a read-only snapshot: it leaves the store as it was and
    reports the number of entries, the number of entries past expiration and
    not yet removed, their difference, the running total in bytes and in
    megabytes, and the configured limit in megabytes. *)
Theorem Stats_read_only_snapshot range c now :
  (∀ m, range m ≡ₚ map_to_list m) →
  let expired_items :=
    Z.of_nat (size (filter (λ ki : keyItem, expired now ki.2) (items c))) in
  Stats range now c
  = (<["total_items" := count c]>
     (<["expired_items" := expired_items]>
     (<["active_items" := count c - expired_items]>
     (<["memory_used_mb" := currentSize c ÷ (1024 * 1024)]>
     (<["memory_limit_mb" := maxMemory c ÷ (1024 * 1024)]>
     (<["memory_used_bytes" := currentSize c]> ∅))))),
     c).
Proof.
  intros Hr. cbv zeta. unfold Stats, bind, get, ret.
  rewrite count_expired_fold, Z.add_0_l.
  rewrite <- length_map_to_list, map_to_list_filter_perm, <- (Hr (items c)).
  reflexivity.
Qed.

(** C3, amended. After [Set(k, v, ttl)] the store maps [k] to [v] with
    expiration [now + ttl] ([defaultTTL] for [ttl = 0]); a later [Get(k)]
    returns [(v, true)] as long as the clock is not strictly after the
    expiration, the expiration instant included, and [(nil, false)] once it
    is strictly after; [Get] of an absent key returns [(nil, false)]; in each
    case [Get] leaves the store, expired entries included, as it was. *)
Theorem Get_after_Set range c key v ttl t0 now :
  let c1 := exec (Set_ range key v ttl t0) c in
  let expiry := t0 + effective_ttl ttl c in
  items c1 !! key = Some (Item v expiry (estimateSize v)) ∧
  Get key now c1 = (if expiry <? now then (VNil, false) else (v, true), c1) ∧
  (∀ c' key', items c' !! key' = None → Get key' now c' = ((VNil, false), c')).
Proof.
  cbv zeta. destruct (Set_inserts range key v ttl t0 c) as (c3 & _ & ->).
  assert (items (set_currentSize (add64 (currentSize c3) (estimateSize v))
            (set_items (<[key:=Item v (t0 + effective_ttl ttl c) (estimateSize v)]>
               (items c3)) c3)) !! key
          = Some (Item v (t0 + effective_ttl ttl c) (estimateSize v))) as Hk
    by apply lookup_insert_eq.
  split; [exact Hk|]. split.
  - unfold Get, bind, get. rewrite Hk. simpl. unfold After.
    by destruct (_ <? _).
  - intros c' key' Hnone. unfold Get, bind, get. by rewrite Hnone.
Qed.

(** ** Writes *)

Lemma stored_bytes_nonneg (m : gmap string item) :
  (∀ k it, m !! k = Some it → 0 <= size_of it) → 0 <= stored_bytes m.
Proof.
  induction m as [|k it m Hk IH] using map_ind; intros Hpos.
  - by rewrite stored_bytes_empty.
  - rewrite stored_bytes_insert by done.
    pose proof (Hpos k it (lookup_insert_eq m k it)).
    assert (0 <= stored_bytes m); [|lia].
    apply IH. intros k' it' H'. apply (Hpos k').
    rewrite lookup_insert_ne; [done|]. intros ->. congruence.
Qed.

Lemma stored_bytes_insert_any (m : gmap string item) k it :
  stored_bytes (<[k:=it]> m) = size_of it + stored_bytes (delete k m).
Proof.
  rewrite <- insert_delete_eq. apply stored_bytes_insert, lookup_delete_eq.
Qed.

(** C8. Oversized items are stored: when a memory bound is set and the
    estimated size of the value alone exceeds it, [Set] stores the entry all
    the same, for every such value and every prior state; the bound is then
    exceeded by the bytes the store holds, no stored size being negative. *)
Theorem Set_oversized_stored range c key v ttl now :
  0 < maxMemory c → maxMemory c < estimateSize v →
  let c' := exec (Set_ range key v ttl now) c in
  items c' !! key = Some (Item v (now + effective_ttl ttl c) (estimateSize v)) ∧
  maxMemory c' = maxMemory c ∧
  ((∀ k it, items c !! k = Some it → 0 <= size_of it) →
   maxMemory c' < stored_bytes (items c')).
Proof.
  intros Hmax Hbig. cbv zeta.
  destruct (Set_inserts range key v ttl now c) as (c3 & (Hsub & _ & _ & Hm) & ->).
  simpl. split; [apply lookup_insert_eq|]. split; [done|]. intros Hpos.
  rewrite stored_bytes_insert_any. simpl.
  assert (0 <= stored_bytes (delete key (items c3))); [|lia].
  apply stored_bytes_nonneg. intros k it Hk. apply (Hpos k).
  eapply lookup_weaken; [|exact Hsub].
  eapply lookup_weaken; [exact Hk|apply delete_subseteq].
Qed.

Lemma effective_ttl_shrinks ttl c c' :
  shrinks c c' → effective_ttl ttl c' = effective_ttl ttl c.
Proof. intros (_ & H & _). unfold effective_ttl. by rewrite H. Qed.

Lemma exec_Set_quiet range key v ttl now c :
  atCapacity c = false →
  overMemory (estimateSize v) (exec (discount_existing key) c) = false →
  exec (Set_ range key v ttl now) c
  = let c2 := exec (discount_existing key) c in
    set_currentSize (add64 (currentSize c2) (estimateSize v))
      (set_items (<[key:=Item v (now + effective_ttl ttl c) (estimateSize v)]>
                    (items c2)) c2).
Proof. intros H1 H2. rewrite exec_Set. cbv zeta. by rewrite H1, H2. Qed.

Lemma items_discount_existing key c :
  items (exec (discount_existing key) c) = items c.
Proof. rewrite exec_discount_existing. by destruct (items c !! key). Qed.

Lemma discount_existing_accounted key c :
  accounted c →
  currentSize (exec (discount_existing key) c)
  = wrap64 (stored_bytes (delete key (items c))).
Proof.
  unfold accounted. intros Hacc. rewrite exec_discount_existing.
  destruct (items c !! key) as [it|] eqn:E; simpl.
  - rewrite Hacc. unfold sub64. rewrite wrap64_sub_l.
    f_equal. by rewrite (stored_bytes_delete _ _ it).
  - by rewrite delete_id.
Qed.

(** C7. [Set(k, v, ttl)] twice in a row, neither call reaching the item or
    memory bound: the store is the original one with the single entry for
    [k] replaced by the new one, the second call leaves the running total
    where the first put it, namely the total without the previous entry of
    [k] plus one estimated size of [v], and a total that was the sum of the
    stored sizes before is the sum of the stored sizes after. *)
Theorem Set_twice_counts_once range c key v ttl t1 t2 :
  let c1 := exec (Set_ range key v ttl t1) c in
  let c2 := exec (Set_ range key v ttl t2) c1 in
  atCapacity c = false →
  overMemory (estimateSize v) (exec (discount_existing key) c) = false →
  atCapacity c1 = false →
  overMemory (estimateSize v) (exec (discount_existing key) c1) = false →
  items c2
  = <[key:=Item v (t2 + effective_ttl ttl c) (estimateSize v)]> (items c) ∧
  size (items c2) = S (size (delete key (items c))) ∧
  currentSize c2 = currentSize c1 ∧
  currentSize c1
  = add64 (currentSize (exec (discount_existing key) c)) (estimateSize v) ∧
  (accounted c → accounted c2).
Proof.
  cbv zeta. intros Hcap1 Hmem1 Hcap2 Hmem2.
  rewrite (exec_Set_quiet range key v ttl t2) by done.
  revert Hcap2 Hmem2. rewrite (exec_Set_quiet range key v ttl t1) by done.
  cbv zeta. intros _ _.
  set (c0 := exec (discount_existing key) c).
  set (sz := estimateSize v).
  set (c1 := set_currentSize (add64 (currentSize c0) sz)
               (set_items (<[key:=Item v (t1 + effective_ttl ttl c) sz]> (items c0)) c0)).
  assert (items c0 = items c) as Hit by apply items_discount_existing.
  assert (exec (discount_existing key) c1
          = set_currentSize (sub64 (add64 (currentSize c0) sz) sz) c1) as Hd.
  { rewrite exec_discount_existing. unfold c1 at 1. simpl.
    by rewrite lookup_insert_eq. }
  rewrite Hd. simpl.
  assert (effective_ttl ttl c1 = effective_ttl ttl c) as ->.
  { unfold effective_ttl, c1, c0. simpl. rewrite exec_discount_existing.
    by destruct (items c !! key). }
  assert (add64 (sub64 (add64 (currentSize c0) sz) sz) sz
          = add64 (currentSize c0) sz) as Hcs.
  { unfold add64, sub64. rewrite wrap64_sub_l, wrap64_add_l.
    f_equal. lia. }
  split; [by rewrite insert_insert_eq, Hit|].
  split.
  { rewrite insert_insert_eq, Hit, <- insert_delete_eq.
    apply map_size_insert_None, lookup_delete_eq. }
  split; [exact Hcs|]. split; [done|].
  intros Hacc. unfold accounted. simpl.
  rewrite Hcs, insert_insert_eq, Hit, stored_bytes_insert_any. simpl.
  unfold c0. rewrite (discount_existing_accounted key c Hacc).
  unfold add64. rewrite wrap64_add_l. f_equal. lia.
Qed.

(** ** The sweep *)

Lemma delete_keys_filter (P : keyItem → Prop) `{!∀ x, Decision (P x)}
    (l : list keyItem) (m : gmap string item) :
  l ≡ₚ map_to_list m →
  delete_keys (filter P l) m = filter (λ ki, ¬ P ki) m.
Proof.
  intros Hl. apply map_eq. intros k. rewrite delete_keys_lookup.
  destruct (m !! k) as [it|] eqn:E.
  - destruct (decide (P (k, it))) as [HP|HP].
    + rewrite decide_True.
      * symmetry. apply map_lookup_filter_None. right. intros it' E'.
        simpl. rewrite E in E'. inv E'. tauto.
      * apply list_elem_of_fmap. exists (k, it). split; [done|].
        apply list_elem_of_filter. split; [done|].
        rewrite Hl. by apply elem_of_map_to_list.
    + rewrite decide_False.
      * symmetry. by apply map_lookup_filter_Some.
      * intros ([k' it'] & -> & [HP' Hin]%list_elem_of_filter)%list_elem_of_fmap.
        rewrite Hl in Hin. apply elem_of_map_to_list in Hin. simpl in *.
        rewrite E in Hin. by inv Hin.
  - destruct (decide _); symmetry; apply map_lookup_filter_None; by left.
Qed.

Lemma cleanup_loop_run (l : list keyItem) now c :
  exec (for_each l (fun '(key, it) =>
          if After now (expiresAt it)
          then modify (fun c => set_items (delete key (items c)) c)
          else ret tt)) c
  = set_items (delete_keys (filter (λ ki, expired now ki.2) l) (items c)) c.
Proof.
  revert c. induction l as [|[k it] l IH]; intros c.
  - by destruct c.
  - rewrite filter_cons. simpl. rewrite exec_seq. unfold After.
    destruct (Z.ltb_spec (expiresAt it) now) as [Hlt|Hge].
    + rewrite decide_True by done. rewrite exec_modify, IH.
      by rewrite delete_keys_cons.
    + rewrite decide_False by (unfold expired; lia). by rewrite exec_ret, IH.
Qed.

(** What a sweep pass does: every entry past expiration leaves the map, and
    the running total is not touched. *)
Lemma cleanup_pass_spec range c now :
  (∀ m, range m ≡ₚ map_to_list m) →
  exec (cleanup_pass range now) c
  = set_items (filter (λ ki : keyItem, ¬ expired now ki.2) (items c)) c.
Proof.
  intros Hr. unfold cleanup_pass. rewrite exec_get, cleanup_loop_run.
  by rewrite (delete_keys_filter (λ ki : keyItem, expired now ki.2)).
Qed.

(** The write path purges the same entries and does debit their sizes. *)
Lemma evictExpired_spec range c now :
  (∀ m, range m ≡ₚ map_to_list m) →
  items (exec (evictExpired range now) c)
  = filter (λ ki : keyItem, ¬ expired now ki.2) (items c).
Proof.
  intros Hr. rewrite exec_evictExpired. simpl.
  by rewrite (delete_keys_filter (λ ki : keyItem, expired now ki.2)).
Qed.

(** ** Evicting a prefix of the entries sorted by expiration *)

Lemma debit_perm l1 l2 cs : l1 ≡ₚ l2 → debit l1 cs = debit l2 cs.
Proof.
  intros Hp. revert cs.
  induction Hp as [|x l1 l2 _ IH|x y l|l1 l2 l3 _ IH1 _ IH2]; intros cs.
  - done.
  - simpl. apply IH.
  - simpl. f_equal. unfold sub64. rewrite !wrap64_sub_l. f_equal. lia.
  - by rewrite IH1.
Qed.

Lemma delete_keys_perm l1 l2 (m : gmap string item) :
  l1 ≡ₚ l2 → delete_keys l1 m = delete_keys l2 m.
Proof.
  intros Hp. apply map_eq. intros k. rewrite !delete_keys_lookup.
  destruct (decide (k ∈ l1.*1)) as [H1|H1];
    destruct (decide (k ∈ l2.*1)) as [H2|H2]; try done.
  - by rewrite <- Hp in H2.
  - by rewrite Hp in H1.
Qed.

Lemma evicted_perm l1 l2 c : l1 ≡ₚ l2 → evicted l1 c = evicted l2 c.
Proof.
  intros Hp. unfold evicted.
  by rewrite (delete_keys_perm l1 l2), (debit_perm l1 l2).
Qed.

Lemma total_size_perm l1 l2 : l1 ≡ₚ l2 → total_size l1 = total_size l2.
Proof.
  induction 1 as [|x l1 l2 _ IH|x y l|l1 l2 l3 _ IH1 _ IH2]; simpl; lia.
Qed.

Lemma total_size_app l1 l2 : total_size (l1 ++ l2) = total_size l1 + total_size l2.
Proof. induction l1 as [|x l1 IH]; simpl; lia. Qed.

Lemma total_size_map_to_list (m : gmap string item) :
  total_size (map_to_list m) = stored_bytes m.
Proof.
  unfold stored_bytes. rewrite map_fold_foldr. unfold total_size.
  induction (map_to_list m) as [|[k it] l IH]; simpl; [done|]. by rewrite IH.
Qed.

Lemma size_delete_keys l (m : gmap string item) :
  NoDup l.*1 → (∀ k it, (k, it) ∈ l → m !! k = Some it) →
  (size (delete_keys l m) + length l = size m)%nat.
Proof.
  revert m. induction l as [|[k it] l IH]; intros m Hnd Hin.
  { simpl. lia. }
  rewrite delete_keys_cons. simpl in *. inv Hnd.
  assert (m !! k = Some it) as Hk by (apply Hin; left).
  assert (size m = S (size (delete k m))) as ->.
  { rewrite <- (insert_delete_id m k it) at 1 by done.
    apply map_size_insert_None, lookup_delete_eq. }
  rewrite <- (IH (delete k m)); [lia|done|].
  intros k' it' H'. rewrite lookup_delete_ne; [apply Hin; by right|].
  intros ->. match goal with H : _ ∉ _ |- _ => apply H end.
  apply list_elem_of_fmap. by exists (k', it').
Qed.

Lemma distinct_expiry_subseteq (m m' : gmap string item) :
  m' ⊆ m → distinct_expiry m → distinct_expiry m'.
Proof.
  intros Hsub Hd k1 k2 it1 it2 H1 H2. apply Hd; by eapply lookup_weaken.
Qed.

Lemma sortByExpiry_unique (m : gmap string item) (l : list keyItem) :
  distinct_expiry m → l ≡ₚ map_to_list m →
  sortByExpiry l = sortByExpiry (map_to_list m).
Proof.
  intros Hd Hl.
  apply (StronglySorted_unique_strong expires_le);
    [|apply sortByExpiry_sorted..|by rewrite !sortByExpiry_perm].
  intros [k1 it1] [k2 it2] H1 H2 Hle1 Hle2.
  rewrite sortByExpiry_perm, Hl in H1. rewrite sortByExpiry_perm in H2.
  apply elem_of_map_to_list in H1, H2. unfold expires_le in *. simpl in *.
  assert (k1 = k2) as -> by (apply (Hd k1 k2 it1 it2); [done..|lia]).
  congruence.
Qed.

Section SortedPrefix.

Variables (m : gmap string item) (L : list keyItem).
Hypothesis L_perm : L ≡ₚ map_to_list m.
Hypothesis L_sorted : StronglySorted expires_le L.
Hypothesis m_distinct : distinct_expiry m.

Lemma L_lookup k it : (k, it) ∈ L ↔ m !! k = Some it.
Proof. rewrite L_perm. apply elem_of_map_to_list. Qed.

Lemma L_NoDup : NoDup L.*1.
Proof. rewrite L_perm. apply NoDup_fst_map_to_list. Qed.

Lemma prefix_NoDup j : NoDup (take j L).*1.
Proof.
  rewrite fmap_take. eapply sublist_NoDup; [apply L_NoDup|apply sublist_take].
Qed.

Lemma prefix_lookup j k it : (k, it) ∈ take j L → m !! k = Some it.
Proof.
  intros H. apply L_lookup. eapply elem_of_sublist; [exact H|]. apply sublist_take.
Qed.

Lemma prefix_size j :
  (j ≤ length L)%nat → (size (delete_keys (take j L) m) + j = size m)%nat.
Proof.
  intros Hj.
  pose proof (size_delete_keys (take j L) m (prefix_NoDup j) (prefix_lookup j)) as H.
  by rewrite length_take_le in H.
Qed.

Lemma prefix_stored_bytes j :
  stored_bytes (delete_keys (take j L) m)
  = stored_bytes m - total_size (take j L).
Proof. apply stored_bytes_delete_keys; [apply prefix_NoDup|apply prefix_lookup]. Qed.

(** Whatever a prefix removes expires before whatever it leaves. *)
Lemma prefix_earliest j k it k' it' :
  m !! k = Some it →
  delete_keys (take j L) m !! k = None →
  delete_keys (take j L) m !! k' = Some it' →
  expiresAt it < expiresAt it'.
Proof.
  rewrite !delete_keys_lookup. intros Hk Hgone Hkept.
  destruct (decide (k ∈ (take j L).*1)) as [Hin|]; [clear Hgone|congruence].
  destruct (decide (k' ∈ (take j L).*1)) as [|Hnin]; [done|].
  apply list_elem_of_fmap in Hin as ([k0 it0] & -> & Hin). simpl in *.
  pose proof (prefix_lookup j _ _ Hin) as Hk0. simpl in Hk0.
  rewrite Hk in Hk0. inv Hk0.
  assert ((k', it') ∈ drop j L) as Hdrop.
  { apply L_lookup in Hkept. rewrite <- (take_drop j L) in Hkept.
    apply elem_of_app in Hkept as [Ht|]; [|done].
    destruct Hnin. apply list_elem_of_fmap. by exists (k', it'). }
  pose proof L_sorted as Hs. rewrite <- (take_drop j L) in Hs.
  pose proof (StronglySorted_app_1_elem_of _ _ _ _ _ Hs Hin Hdrop) as Hle.
  unfold expires_le in Hle. simpl in Hle.
  destruct (decide (expiresAt it0 = expiresAt it')) as [Heq|]; [|lia].
  pose proof (m_distinct _ _ _ _ Hk Hkept Heq) as ->.
  destruct Hnin. apply list_elem_of_fmap. by exists (k', it0).
Qed.

End SortedPrefix.

(** ** The iteration order does not matter when expirations are distinct *)

Lemma distinct_expiry_NoDup (m : gmap string item) :
  NoDup ((λ ki : keyItem, expiresAt ki.2) <$> map_to_list m) → distinct_expiry m.
Proof.
  intros Hnd k1 k2 it1 it2 H1 H2 Heq.
  apply elem_of_map_to_list in H1, H2.
  apply list_elem_of_lookup in H1 as [i1 H1], H2 as [i2 H2].
  assert (i1 = i2) as ->.
  { eapply NoDup_lookup; [exact Hnd| |].
    - rewrite list_lookup_fmap, H1. reflexivity.
    - rewrite list_lookup_fmap, H2. simpl. by rewrite Heq. }
  congruence.
Qed.

Section AnyOrder.

Variable range : gmap string item → list keyItem.
Hypothesis range_perm : ∀ m, range m ≡ₚ map_to_list m.

Lemma evictExpired_any_order now c :
  exec (evictExpired range now) c = exec (evictExpired map_to_list now) c.
Proof.
  rewrite !exec_evictExpired. apply evicted_perm. by rewrite range_perm.
Qed.

Lemma evictOldest_any_order n c :
  distinct_expiry (items c) →
  exec (evictOldest range n) c = exec (evictOldest map_to_list n) c.
Proof.
  intros Hd. rewrite !exec_evictOldest.
  by rewrite (sortByExpiry_unique (items c) (range (items c))).
Qed.

Lemma evictOldestBySize_any_order t c :
  distinct_expiry (items c) →
  exec (evictOldestBySize range t) c = exec (evictOldestBySize map_to_list t) c.
Proof.
  intros Hd. rewrite !exec_evictOldestBySize.
  by rewrite (sortByExpiry_unique (items c) (range (items c))).
Qed.

Lemma distinct_expiry_shrinks c c' :
  shrinks c c' → distinct_expiry (items c) → distinct_expiry (items c').
Proof. intros [Hsub _]. by apply distinct_expiry_subseteq. Qed.

Lemma evictToFitMemory_any_order sz now c :
  distinct_expiry (items c) →
  exec (evictToFitMemory range sz now) c
  = exec (evictToFitMemory map_to_list sz now) c.
Proof.
  intros Hd. rewrite !exec_evictToFitMemory. cbv zeta.
  rewrite evictExpired_any_order. destruct (_ <? _); [|done].
  apply evictOldestBySize_any_order.
  eapply distinct_expiry_shrinks; [apply shrinks_evictExpired|done].
Qed.

Lemma Set_any_order key v ttl now c :
  distinct_expiry (items c) →
  exec (Set_ range key v ttl now) c = exec (Set_ map_to_list key v ttl now) c.
Proof.
  intros Hd. rewrite !exec_Set. cbv zeta.
  rewrite evictExpired_any_order.
  set (c' := exec (evictExpired map_to_list now) c).
  assert (distinct_expiry (items c')) as Hd'
    by (eapply distinct_expiry_shrinks; [apply shrinks_evictExpired|done]).
  rewrite (evictOldest_any_order _ c' Hd').
  set (c1 := if atCapacity c then _ else c).
  assert (distinct_expiry (items c1)) as Hd1.
  { unfold c1. destruct (atCapacity c); [|done].
    destruct (_ <=? _); [|done].
    eapply distinct_expiry_shrinks; [apply shrinks_evictOldest|done]. }
  set (c2 := exec (discount_existing key) c1).
  assert (distinct_expiry (items c2)) as Hd2
    by (eapply distinct_expiry_shrinks; [apply shrinks_discount_existing|done]).
  by rewrite (evictToFitMemory_any_order _ now c2 Hd2).
Qed.

End AnyOrder.

(** ** Eviction by item count *)

Ltac distinct_by_computation :=
  apply distinct_expiry_NoDup; apply (bool_decide_unpack _); vm_compute; exact I.

Lemma evicted_nil c : evicted [] c = c.
Proof. by destruct c. Qed.

Section AtCapacity.

Variable range : gmap string item → list keyItem.
Hypothesis range_perm : ∀ m, range m ≡ₚ map_to_list m.

Lemma evictExpired_nothing_expired now c :
  (∀ k it, items c !! k = Some it → ¬ expired now it) →
  exec (evictExpired range now) c = c.
Proof.
  intros Hlive. rewrite exec_evictExpired.
  destruct (filter _ (range (items c))) as [|[k it] l] eqn:E;
    [apply evicted_nil|].
  assert ((k, it) ∈ filter (λ ki : keyItem, expired now ki.2) (range (items c)))
    as [Hexp Hin]%list_elem_of_filter by (rewrite E; left).
  rewrite range_perm in Hin. apply elem_of_map_to_list in Hin.
  by destruct (Hlive k it Hin).
Qed.

(** Writing a new key into a store that is at its item bound, nothing having
    expired and no memory bound being set, removes one entry, and no entry
    expires before that one. *)
Lemma Set_at_capacity_evicts_min c key v ttl now :
  0 < maxItems c → count c = maxItems c → maxMemory c = 0 →
  (∀ k it, items c !! k = Some it → ¬ expired now it) →
  items c !! key = None →
  ∃ kmin itmin,
    items c !! kmin = Some itmin ∧
    (∀ k it, items c !! k = Some it → expiresAt itmin <= expiresAt it) ∧
    items (exec (Set_ range key v ttl now) c)
    = <[key:=Item v (now + effective_ttl ttl c) (estimateSize v)]>
        (delete kmin (items c)).
Proof.
  intros Hmax Hfull Hmem Hlive Hfresh.
  rewrite exec_Set. cbv zeta. unfold atCapacity.
  rewrite evictExpired_nothing_expired by done.
  destruct (Z.ltb_spec 0 (maxItems c)) as [_|]; [|lia].
  destruct (Z.leb_spec (maxItems c) (count c)) as [_|]; [|lia]. simpl.
  replace (count c - maxItems c + 1) with 1 by lia.
  rewrite exec_evictOldest. simpl.
  set (L := sortByExpiry (range (items c))).
  assert (L ≡ₚ map_to_list (items c)) as HL
    by (unfold L; by rewrite sortByExpiry_perm).
  assert (StronglySorted expires_le L) as HS by apply sortByExpiry_sorted.
  destruct L as [|[kmin itmin] L'] eqn:EL.
  { apply Permutation_length in HL. rewrite length_map_to_list in HL.
    unfold count in Hfull. simpl in HL. lia. }
  assert (items c !! kmin = Some itmin) as Hmin
    by (apply (L_lookup (items c) _ HL); left).
  exists kmin, itmin. split; [done|]. split.
  - intros k it Hk. apply (L_lookup (items c) _ HL) in Hk.
    apply StronglySorted_inv in HS as [_ Hall]. rewrite Forall_forall in Hall.
    apply elem_of_cons in Hk as [[= -> ->]|Hk]; [lia|]. apply (Hall _ Hk).
  - rewrite exec_discount_existing. simpl.
    rewrite lookup_delete_ne by (intros ->; congruence). rewrite Hfresh.
    unfold overMemory. simpl. rewrite Hmem. reflexivity.
Qed.

End AtCapacity.

(** C5. Eviction ordering. On a store whose entries expire at pairwise
    distinct instants, [evictOldest(N)] with [0 < N <= len(items)] removes
    exactly [N] entries, each of which expires before every entry it keeps;
    [Set] of a new key into a store at its item bound, nothing having
    expired and no memory bound being set, evicts one entry that no other
    entry precedes in expiration; and with [maxItems = 3], writing four
    distinct keys with increasing expirations leaves exactly the three
    entries that expire last. *)
Theorem evictOldest_removes_nearest_expiry range :
  (∀ m, range m ≡ₚ map_to_list m) →
  (∀ c N, distinct_expiry (items c) → 0 < N <= count c →
     let c' := exec (evictOldest range N) c in
     items c' ⊆ items c ∧
     count c' = count c - N ∧
     ∀ k it k' it',
       items c !! k = Some it → items c' !! k = None →
       items c' !! k' = Some it' → expiresAt it < expiresAt it') ∧
  (∀ c key v ttl now,
     0 < maxItems c → count c = maxItems c → maxMemory c = 0 →
     (∀ k it, items c !! k = Some it → ¬ expired now it) →
     items c !! key = None →
     ∃ kmin itmin,
       items c !! kmin = Some itmin ∧
       (∀ k it, items c !! k = Some it → expiresAt itmin <= expiresAt it) ∧
       items (exec (Set_ range key v ttl now) c)
       = <[key:=Item v (now + effective_ttl ttl c) (estimateSize v)]>
           (delete kmin (items c))) ∧
  items (exec (four_inserts range) (NewWithMaxItems 60 3))
  = <["k2" := Item (VString "v2") 62 18]>
    (<["k3" := Item (VString "v3") 63 18]>
    (<["k4" := Item (VString "v4") 64 18]> ∅)).
Proof.
  intros Hr. split; [|split].
  - intros c N Hd HN. cbv zeta. rewrite exec_evictOldest.
    destruct (Z.leb_spec N 0) as [|_]; [lia|]. simpl.
    set (L := sortByExpiry (range (items c))).
    assert (L ≡ₚ map_to_list (items c)) as HL
      by (unfold L; by rewrite sortByExpiry_perm).
    assert (StronglySorted expires_le L) as HS by apply sortByExpiry_sorted.
    split; [apply delete_keys_subseteq|]. split.
    + unfold count in *.
      pose proof (prefix_size (items c) L HL (Z.to_nat N)) as Hsz.
      pose proof (Permutation_length HL) as Hlen.
      rewrite length_map_to_list in Hlen.
      specialize (Hsz ltac:(lia)). simpl. lia.
    + intros k it k' it'. by apply (prefix_earliest (items c) L HL HS Hd).
  - intros. by apply Set_at_capacity_evicts_min.
  - unfold four_inserts. rewrite !exec_seq.
    rewrite (Set_any_order range Hr) by distinct_by_computation.
    rewrite (Set_any_order range Hr) by distinct_by_computation.
    rewrite (Set_any_order range Hr) by distinct_by_computation.
    rewrite (Set_any_order range Hr) by distinct_by_computation.
    by vm_compute.
Qed.

(** ** Eviction by memory *)

Lemma NoDup_fst_filter (P : keyItem → Prop) `{!∀ x, Decision (P x)} (l : list keyItem) :
  NoDup l.*1 → NoDup (filter P l).*1.
Proof.
  induction l as [|[k it] l IH]; intros Hnd; [constructor|].
  inv Hnd. rewrite filter_cons. destruct (decide (P (k, it))); [|by apply IH].
  rewrite fmap_cons. simpl. constructor; [|by apply IH].
  intros ([k' it'] & Heq & [_ Hin]%list_elem_of_filter)%list_elem_of_fmap.
  simpl in Heq. subst k'.
  match goal with H : _ ∉ _ |- _ => apply H end.
  apply list_elem_of_fmap. by exists (k, it').
Qed.

Lemma total_size_nonneg l :
  Forall (λ ki : keyItem, 0 <= size_of ki.2) l → 0 <= total_size l.
Proof. induction 1; simpl; lia. Qed.

Lemma evicted_debit_nonneg l c :
  (∀ k it, (k, it) ∈ l → items c !! k = Some it) → well_accounted c →
  0 <= total_size l.
Proof.
  intros Hin (_ & _ & Hpos). apply total_size_nonneg, Forall_forall.
  intros [k it] Hki. apply (Hpos k). by apply Hin.
Qed.

Lemma evicted_well_accounted l c :
  NoDup l.*1 → (∀ k it, (k, it) ∈ l → items c !! k = Some it) →
  well_accounted c →
  well_accounted (evicted l c) ∧
  currentSize (evicted l c) = currentSize c - total_size l.
Proof.
  intros Hnd Hin (Hacc & Hrange & Hpos).
  assert (∀ k it, delete_keys l (items c) !! k = Some it → 0 <= size_of it) as Hpos'.
  { intros k it Hk. apply (Hpos k).
    eapply lookup_weaken; [exact Hk|apply delete_keys_subseteq]. }
  pose proof (stored_bytes_delete_keys l (items c) Hnd Hin) as Hst.
  pose proof (stored_bytes_nonneg _ Hpos') as H0.
  assert (0 <= total_size l) as Ht.
  { apply total_size_nonneg, Forall_forall. intros [k it] Hki.
    apply (Hpos k). by apply Hin. }
  assert (debit l (currentSize c) = currentSize c - total_size l) as Hd.
  { rewrite debit_range by done. apply wrap64_id.
    unfold int64_range in *. lia. }
  unfold well_accounted. simpl. rewrite Hd. repeat split.
  - lia.
  - unfold int64_range in *. lia.
  - unfold int64_range in *. lia.
  - exact Hpos'.
Qed.

Lemma freed_prefix_take xs freed target :
  ∃ j, freed_prefix xs freed target = take j xs.
Proof.
  revert freed. induction xs as [|ki xs IH]; intros freed; simpl.
  - by exists 0%nat.
  - destruct (freed <? target); [|by exists 0%nat].
    destruct (IH (add64 freed (size_of ki.2))) as [j ->]. by exists (S j).
Qed.

(** The loop stops only once enough bytes are freed or nothing is left. *)
Lemma freed_prefix_enough xs freed target :
  0 <= freed → Forall (λ ki : keyItem, 0 <= size_of ki.2) xs →
  freed + total_size xs < 2 ^ 63 →
  freed_prefix xs freed target = xs ∨
  target <= freed + total_size (freed_prefix xs freed target).
Proof.
  revert freed. induction xs as [|ki xs IH]; intros freed Hf Hpos Hsum; simpl.
  - by left.
  - inv Hpos. simpl in Hsum.
    pose proof (total_size_nonneg xs ltac:(done)).
    destruct (Z.ltb_spec freed target) as [Hlt|Hge]; [|right; simpl; lia].
    assert (add64 freed (size_of ki.2) = freed + size_of ki.2) as ->
      by (apply wrap64_id; unfold int64_range; lia).
    destruct (IH (freed + size_of ki.2)) as [->|Hle]; [lia|done|lia|by left|].
    right. simpl. lia.
Qed.

(** The loop frees no more than asked: what it removed before any entry it
    removes was not enough. *)
Lemma freed_prefix_needed xs freed target i ki :
  0 <= freed → Forall (λ ki : keyItem, 0 <= size_of ki.2) xs →
  freed + total_size xs < 2 ^ 63 →
  freed_prefix xs freed target !! i = Some ki →
  freed + total_size (take i xs) < target.
Proof.
  revert freed i. induction xs as [|x xs IH]; intros freed i Hf Hpos Hsum; simpl.
  { by rewrite lookup_nil. }
  inv Hpos. simpl in Hsum.
  pose proof (total_size_nonneg xs ltac:(done)).
  destruct (Z.ltb_spec freed target) as [Hlt|Hge]; [|by rewrite lookup_nil].
  assert (add64 freed (size_of x.2) = freed + size_of x.2) as ->
    by (apply wrap64_id; unfold int64_range; lia).
  destruct i as [|i]; simpl; [lia|]. intros Hi.
  pose proof (IH (freed + size_of x.2) i ltac:(lia) ltac:(done) ltac:(lia) Hi).
  lia.
Qed.

Section SortedPrefixBytes.

Variables (m : gmap string item) (L : list keyItem).
Hypothesis L_perm : L ≡ₚ map_to_list m.
Hypothesis L_sorted : StronglySorted expires_le L.
Hypothesis m_distinct : distinct_expiry m.

(** The entries before position [i] are those that expire before the entry
    at position [i]. *)
Lemma prefix_before i e :
  L !! i = Some e →
  delete_keys (take i L) m
  = filter (λ ki : keyItem, expiresAt e.2 <= expiresAt ki.2) m.
Proof.
  intros Hi. apply map_eq. intros k. rewrite delete_keys_lookup.
  pose proof (L_NoDup m L L_perm) as Hnd.
  rewrite <- (take_drop i L), fmap_app, NoDup_app in Hnd.
  destruct Hnd as (_ & Hdisj & _).
  pose proof L_sorted as Hs. rewrite <- (take_drop i L) in Hs.
  assert (drop i L = e :: drop (S i) L) as Hdrop by (by apply drop_S).
  assert (e ∈ drop i L) as He by (rewrite Hdrop; left).
  destruct (m !! k) as [it|] eqn:E.
  - assert ((k, it) ∈ take i L ++ drop i L) as Hin
      by (rewrite take_drop; by apply (L_lookup m L L_perm)).
    destruct (decide (k ∈ (take i L).*1)) as [Hk|Hk].
    + symmetry. apply map_lookup_filter_None. right. intros it' E' Hle.
      rewrite E in E'. inv E'. simpl in Hle.
      apply elem_of_app in Hin as [Hin|Hin].
      * pose proof (StronglySorted_app_1_elem_of _ _ _ _ _ Hs Hin He) as Hle'.
        unfold expires_le in Hle'. simpl in Hle'.
        destruct e as [ke ite]. simpl in *.
        assert (m !! ke = Some ite) as Eke.
        { apply (L_lookup m L L_perm). eapply elem_of_sublist; [exact He|].
          apply sublist_drop. }
        assert (k = ke) as -> by (apply (m_distinct k ke it' ite); [done..|lia]).
        apply (Hdisj ke Hk). apply list_elem_of_fmap. by exists (ke, ite).
      * apply (Hdisj k Hk). apply list_elem_of_fmap. by exists (k, it').
    + symmetry. apply map_lookup_filter_Some. split; [done|]. simpl.
      apply elem_of_app in Hin as [Hin|Hin].
      { destruct Hk. apply list_elem_of_fmap. by exists (k, it). }
      rewrite Hdrop in Hin. apply elem_of_cons in Hin as [<-|Hin]; [simpl; lia|].
      apply StronglySorted_app_1_r in Hs. rewrite Hdrop in Hs.
      apply StronglySorted_inv in Hs as [_ Hall].
      rewrite Forall_forall in Hall. apply (Hall _ Hin).
  - destruct (decide _); symmetry; apply map_lookup_filter_None; by left.
Qed.

End SortedPrefixBytes.

Section FitMemory.

Variable range : gmap string item → list keyItem.
Hypothesis range_perm : ∀ m, range m ≡ₚ map_to_list m.

Lemma evictExpired_well_accounted now c :
  well_accounted c →
  well_accounted (exec (evictExpired range now) c) ∧
  currentSize (exec (evictExpired range now) c) <= currentSize c.
Proof.
  intros Hw. rewrite exec_evictExpired.
  set (l := filter _ _).
  assert (NoDup l.*1) as Hnd.
  { apply NoDup_fst_filter. rewrite range_perm. apply NoDup_fst_map_to_list. }
  assert (∀ k it, (k, it) ∈ l → items c !! k = Some it) as Hin.
  { intros k it [_ Hin]%list_elem_of_filter.
    rewrite range_perm in Hin. by apply elem_of_map_to_list. }
  destruct (evicted_well_accounted l c Hnd Hin Hw) as [Hw' ->].
  split; [done|]. apply evicted_debit_nonneg in Hin; [lia|done].
Qed.

Lemma evictToFitMemory_spec c newItemSize now :
  well_accounted c → int64_range (maxMemory c) →
  0 <= newItemSize <= maxMemory c →
  let c' := exec (evictToFitMemory range newItemSize now) c in
  let live := filter (unexpired now) (items c) in
  items c' ⊆ live ∧
  well_accounted c' ∧
  currentSize c' + newItemSize <= maxMemory c ∧
  (distinct_expiry (items c) →
   (∀ k it k' it',
      live !! k = Some it → items c' !! k = None →
      items c' !! k' = Some it' → expiresAt it < expiresAt it') ∧
   (∀ k it,
      live !! k = Some it → items c' !! k = None →
      maxMemory c
      < stored_bytes (filter (λ ki : keyItem, expiresAt it <= expiresAt ki.2) live)
        + newItemSize)).
Proof.
  intros Hw Hmax Hsz. cbv zeta.
  rewrite exec_evictToFitMemory. cbv zeta.
  pose proof (evictExpired_well_accounted now c Hw) as [Hw1 _].
  pose proof (evictExpired_spec range c now range_perm) as Hitems.
  set (c1 := exec (evictExpired range now) c) in *.
  fold (unexpired now) in Hitems. rewrite <- Hitems.
  assert (sub64 (maxMemory c) newItemSize = maxMemory c - newItemSize) as ->
    by (apply wrap64_id; unfold int64_range in *; lia).
  destruct Hw1 as (Hacc1 & Hr1 & Hpos1).
  destruct (Z.ltb_spec (maxMemory c - newItemSize) (currentSize c1)) as [Hlt|Hge].
  2:{ split; [done|]. split; [done|]. split; [lia|].
      intros _. split; intros; congruence. }
  assert (sub64 (currentSize c1) (maxMemory c - newItemSize)
          = currentSize c1 - (maxMemory c - newItemSize)) as ->
    by (apply wrap64_id; unfold int64_range in *; lia).
  set (t := currentSize c1 - (maxMemory c - newItemSize)).
  rewrite exec_evictOldestBySize.
  destruct (Z.leb_spec t 0) as [|_]; [unfold t in *; lia|].
  set (L := sortByExpiry (range (items c1))).
  assert (L ≡ₚ map_to_list (items c1)) as HL
    by (unfold L; by rewrite sortByExpiry_perm).
  assert (StronglySorted expires_le L) as HS by apply sortByExpiry_sorted.
  assert (Forall (λ ki : keyItem, 0 <= size_of ki.2) L) as HposL.
  { apply Forall_forall. intros [k it] Hin. apply (Hpos1 k).
    by apply (L_lookup (items c1) L HL). }
  assert (total_size L = currentSize c1) as HtotL
    by (rewrite (total_size_perm _ _ HL), total_size_map_to_list; lia).
  destruct (freed_prefix_take L 0 t) as [j Hj].
  pose proof (evicted_well_accounted (take j L) c1
                (prefix_NoDup (items c1) L HL j)
                (prefix_lookup (items c1) L HL j)
                (conj Hacc1 (conj Hr1 Hpos1))) as [Hw' Hcs'].
  rewrite Hj.
  split; [apply delete_keys_subseteq|].
  split; [exact Hw'|]. split.
  { rewrite Hcs'.
    destruct (freed_prefix_enough L 0 t) as [Hall|Hen];
      [lia|done|unfold int64_range in *; lia| |].
    + rewrite <- Hj, Hall. lia.
    + rewrite <- Hj. unfold t in *. lia. }
  intros Hd.
  assert (distinct_expiry (items c1)) as Hd1.
  { eapply distinct_expiry_subseteq; [|exact Hd].
    rewrite Hitems. apply map_filter_subseteq. }
  split; [intros k it k' it'; by apply (prefix_earliest (items c1) L HL HS Hd1)|].
  intros k it Hk Hgone. simpl in Hgone.
  rewrite delete_keys_lookup in Hgone.
  destruct (decide (k ∈ (take j L).*1)) as [Hin|]; [|congruence].
  apply list_elem_of_fmap in Hin as ([k0 it0] & -> & Hin). simpl in *.
  pose proof (prefix_lookup (items c1) L HL j _ _ Hin) as Hk0.
  rewrite Hk in Hk0. inv Hk0.
  apply list_elem_of_lookup in Hin as [i Hi].
  pose proof Hi as Hi'. rewrite <- Hj in Hi'.
  apply (freed_prefix_needed L 0 t i) in Hi';
    [|lia|done|unfold int64_range in *; lia].
  apply lookup_take_Some in Hi as [Hi _].
  pose proof (prefix_before (items c1) L HL HS Hd1 i (k0, it0) Hi) as Hb.
  simpl in Hb. rewrite <- Hb.
  rewrite (prefix_stored_bytes (items c1) L HL). unfold t in Hi'. lia.
Qed.

Lemma evictOldest_well_accounted n c :
  well_accounted c →
  well_accounted (exec (evictOldest range n) c) ∧
  currentSize (exec (evictOldest range n) c) <= currentSize c.
Proof.
  intros Hw. rewrite exec_evictOldest. destruct (n <=? 0); [split; [done|lia]|].
  assert (sortByExpiry (range (items c)) ≡ₚ map_to_list (items c)) as HL
    by (by rewrite sortByExpiry_perm).
  set (l := take _ _).
  assert (NoDup l.*1) as Hnd by (by apply (prefix_NoDup (items c))).
  assert (∀ k it, (k, it) ∈ l → items c !! k = Some it) as Hin
    by (by apply (prefix_lookup (items c))).
  destruct (evicted_well_accounted l c Hnd Hin Hw) as [Hw' ->].
  split; [done|]. apply evicted_debit_nonneg in Hin; [lia|done].
Qed.

(** A new key written into a correctly accounted store: the store stays
    correctly accounted and, the value fitting the bound by itself, within
    the bound. *)
Lemma Set_respects_memory_bound c key v ttl now :
  well_accounted c → currentSize c < 2 ^ 62 →
  0 < maxMemory c < 2 ^ 62 →
  items c !! key = None →
  0 <= estimateSize v <= maxMemory c →
  let c' := exec (Set_ range key v ttl now) c in
  well_accounted c' ∧ currentSize c' <= maxMemory c'.
Proof.
  intros Hw Hcs Hmax Hfresh Hsz. cbv zeta. rewrite exec_Set. cbv zeta.
  set (c1 := if atCapacity c then _ else c).
  assert (well_accounted c1 ∧ currentSize c1 <= currentSize c ∧ shrinks c c1)
    as (Hw1 & Hle1 & Hs1).
  { unfold c1. destruct (atCapacity c); [|repeat split; [apply Hw..|lia|done]].
    destruct (evictExpired_well_accounted now c Hw) as [Hwe Hlee].
    destruct (_ <=? _); [|split; [done|split; [done|apply shrinks_evictExpired]]].
    destruct (evictOldest_well_accounted
                (count (exec (evictExpired range now) c)
                 - maxItems (exec (evictExpired range now) c) + 1)
                (exec (evictExpired range now) c) Hwe) as [Hwo Hleo].
    split; [done|]. split; [lia|].
    eapply shrinks_trans; [apply shrinks_evictExpired|apply shrinks_evictOldest]. }
  destruct Hs1 as (Hsub1 & _ & _ & Hm1).
  assert (items c1 !! key = None) as Hfresh1.
  { destruct (items c1 !! key) as [it|] eqn:E; [|done].
    pose proof (lookup_weaken _ _ _ _ E Hsub1). congruence. }
  rewrite exec_discount_existing, Hfresh1.
  assert (0 <= currentSize c1) as H0.
  { destruct Hw1 as (-> & _ & Hp). by apply stored_bytes_nonneg. }
  set (sz := estimateSize v) in *.
  assert (∃ c3, (if overMemory sz c1
                 then exec (evictToFitMemory range sz now) c1 else c1) = c3 ∧
                well_accounted c3 ∧ currentSize c3 + sz <= maxMemory c ∧
                items c3 ⊆ items c1 ∧ maxMemory c3 = maxMemory c)
    as (c3 & -> & Hw3 & Hfit & Hsub3 & Hm3).
  { eexists. split; [reflexivity|]. unfold overMemory.
    assert (add64 (currentSize c1) sz = currentSize c1 + sz) as ->
      by (apply wrap64_id; unfold int64_range; lia).
    rewrite Hm1. destruct (Z.ltb_spec 0 (maxMemory c)); [|lia]. simpl.
    destruct (Z.ltb_spec (maxMemory c) (currentSize c1 + sz)).
    - destruct (evictToFitMemory_spec c1 sz now Hw1) as (Hsub & Hw3 & Hfit & _).
      { unfold int64_range. lia. } { lia. }
      split; [done|]. split; [lia|]. split.
      + etrans; [exact Hsub|apply map_filter_subseteq].
      + destruct (shrinks_evictToFitMemory range sz now c1) as (_ & _ & _ & ->).
        done.
    - repeat split; [apply Hw1..|lia|done|done]. }
  assert (items c3 !! key = None) as Hfresh3.
  { destruct (items c3 !! key) as [it|] eqn:E; [|done].
    pose proof (lookup_weaken _ _ _ _ E Hsub3). congruence. }
  destruct Hw3 as (Ha3 & Hr3 & Hp3).
  assert (0 <= currentSize c3) as H3 by (rewrite Ha3; by apply stored_bytes_nonneg).
  assert (add64 (currentSize c3) sz = currentSize c3 + sz) as Hadd
    by (apply wrap64_id; unfold int64_range; lia).
  unfold well_accounted. simpl. rewrite Hadd, Hm3.
  rewrite stored_bytes_insert by done. simpl.
  repeat split; [lia|lia|lia| |lia].
  intros k it. rewrite lookup_insert. destruct (decide (key = k)).
  - intros [= <-]. simpl. lia.
  - apply Hp3.
Qed.

End FitMemory.

(** X20. Eviction by memory on a correctly accounted store. On a store whose
    running total is the exact sum of its non-negative stored sizes, and for
    a new size between 0 and the bound, [evictToFitMemory] first drops every
    entry past expiration; afterwards the running total is still the sum of
    the stored sizes and leaves room for the new value; with distinct
    expirations, whatever else it evicts expires before all it keeps, and an
    entry goes only if the entries expiring no earlier than it, together with
    the new value, do not fit. A key that is not in such a store, written by
    [Set] with a value within the bound, leaves the store correctly
    accounted and within its bound. With a bound of 100 bytes and 40-byte
    values written under [a], [b], [c], [a] expiring soonest, writing [c]
    evicts [a]; [b] and [c] remain. *)
Theorem evictToFitMemory_makes_room range :
  (∀ m, range m ≡ₚ map_to_list m) →
  (∀ c newItemSize now,
     well_accounted c → int64_range (maxMemory c) →
     0 <= newItemSize <= maxMemory c →
     let c' := exec (evictToFitMemory range newItemSize now) c in
     let live := filter (unexpired now) (items c) in
     items c' ⊆ live ∧
     well_accounted c' ∧
     currentSize c' + newItemSize <= maxMemory c ∧
     (distinct_expiry (items c) →
      (∀ k it k' it',
         live !! k = Some it → items c' !! k = None →
         items c' !! k' = Some it' → expiresAt it < expiresAt it') ∧
      (∀ k it,
         live !! k = Some it → items c' !! k = None →
         maxMemory c
         < stored_bytes
             (filter (λ ki : keyItem, expiresAt it <= expiresAt ki.2) live)
           + newItemSize))) ∧
  (∀ c key v ttl now,
     well_accounted c → currentSize c < 2 ^ 62 → 0 < maxMemory c < 2 ^ 62 →
     items c !! key = None → 0 <= estimateSize v <= maxMemory c →
     let c' := exec (Set_ range key v ttl now) c in
     well_accounted c' ∧ currentSize c' <= maxMemory c') ∧
  (let c3 := exec (three_inserts range) store100 in
   items c3 = <["b" := Item v40 20 40]> (<["c" := Item v40 30 40]> ∅) ∧
   currentSize c3 = 80).
Proof.
  intros Hr. split; [intros; by apply evictToFitMemory_spec|].
  split; [intros; by apply Set_respects_memory_bound|].
  unfold three_inserts. rewrite !exec_seq.
  rewrite (Set_any_order range Hr) by distinct_by_computation.
  rewrite (Set_any_order range Hr) by distinct_by_computation.
  rewrite (Set_any_order range Hr) by distinct_by_computation.
  by vm_compute.
Qed.

(** ** Where the running total is kept right

    Every removal on the write path debits what it removes, so the total
    stays the 64-bit sum of the stored sizes through [Delete], [Clear], the
    three evictions, and [Set] of a key that is not in the map. *)

Lemma evicted_accounted l c :
  NoDup l.*1 → (∀ k it, (k, it) ∈ l → items c !! k = Some it) →
  accounted c → accounted (evicted l c).
Proof.
  unfold accounted. intros Hnd Hin Hacc. simpl.
  by rewrite Hacc, debit_wrap, stored_bytes_delete_keys.
Qed.

Lemma Clear_accounted c : accounted (exec Clear c).
Proof. unfold accounted. simpl. by rewrite stored_bytes_empty. Qed.

Lemma Delete_accounted key c : accounted c → accounted (exec (Delete key) c).
Proof.
  unfold accounted. intros Hacc. unfold Delete. rewrite exec_get.
  destruct (items c !! key) as [it|] eqn:E; [|done]. simpl.
  rewrite Hacc. unfold sub64. rewrite wrap64_sub_l.
  by rewrite (stored_bytes_delete _ _ it).
Qed.

Section Accounting.

Variable range : gmap string item → list keyItem.
Hypothesis range_perm : ∀ m, range m ≡ₚ map_to_list m.

Lemma evictExpired_accounted now c :
  accounted c → accounted (exec (evictExpired range now) c).
Proof.
  intros Hacc. rewrite exec_evictExpired. apply evicted_accounted; [| |done].
  - apply NoDup_fst_filter. rewrite range_perm. apply NoDup_fst_map_to_list.
  - intros k it [_ Hin]%list_elem_of_filter.
    rewrite range_perm in Hin. by apply elem_of_map_to_list.
Qed.

Lemma sorted_range_perm c :
  sortByExpiry (range (items c)) ≡ₚ map_to_list (items c).
Proof. by rewrite sortByExpiry_perm. Qed.

Lemma evictOldest_accounted n c :
  accounted c → accounted (exec (evictOldest range n) c).
Proof.
  intros Hacc. rewrite exec_evictOldest. destruct (n <=? 0); [done|].
  apply evicted_accounted; [| |done].
  - apply (prefix_NoDup (items c)), sorted_range_perm.
  - apply (prefix_lookup (items c)), sorted_range_perm.
Qed.

Lemma evictOldestBySize_accounted t c :
  accounted c → accounted (exec (evictOldestBySize range t) c).
Proof.
  intros Hacc. rewrite exec_evictOldestBySize. destruct (t <=? 0); [done|].
  destruct (freed_prefix_take (sortByExpiry (range (items c))) 0 t) as [j ->].
  apply evicted_accounted; [| |done].
  - apply (prefix_NoDup (items c)), sorted_range_perm.
  - apply (prefix_lookup (items c)), sorted_range_perm.
Qed.

Lemma evictToFitMemory_accounted sz now c :
  accounted c → accounted (exec (evictToFitMemory range sz now) c).
Proof.
  intros Hacc. rewrite exec_evictToFitMemory. cbv zeta.
  pose proof (evictExpired_accounted now c Hacc).
  destruct (_ <? _); [by apply evictOldestBySize_accounted|done].
Qed.

Lemma Set_accounted_new_key key v ttl now c :
  items c !! key = None → accounted c →
  accounted (exec (Set_ range key v ttl now) c).
Proof.
  intros Hfresh Hacc. rewrite exec_Set. cbv zeta.
  set (c1 := if atCapacity c then _ else c).
  assert (accounted c1 ∧ shrinks c c1) as [Hacc1 (Hsub1 & _)].
  { unfold c1. destruct (atCapacity c); [|split; [done|apply shrinks_refl]].
    pose proof (evictExpired_accounted now c Hacc).
    destruct (_ <=? _); [|split; [done|apply shrinks_evictExpired]].
    split; [by apply evictOldest_accounted|].
    eapply shrinks_trans; [apply shrinks_evictExpired|apply shrinks_evictOldest]. }
  assert (items c1 !! key = None) as Hfresh1.
  { destruct (items c1 !! key) as [it|] eqn:E; [|done].
    pose proof (lookup_weaken _ _ _ _ E Hsub1). congruence. }
  rewrite exec_discount_existing, Hfresh1.
  set (c3 := if overMemory _ c1 then _ else c1).
  assert (accounted c3 ∧ shrinks c1 c3) as [Hacc3 (Hsub3 & _)].
  { unfold c3. destruct (overMemory _ c1); [|split; [done|apply shrinks_refl]].
    split; [by apply evictToFitMemory_accounted|apply shrinks_evictToFitMemory]. }
  assert (items c3 !! key = None) as Hfresh3.
  { destruct (items c3 !! key) as [it|] eqn:E; [|done].
    pose proof (lookup_weaken _ _ _ _ E Hsub3). congruence. }
  unfold accounted in *. simpl. rewrite Hacc3.
  rewrite stored_bytes_insert by done. simpl.
  unfold add64. rewrite wrap64_add_l. f_equal. lia.
Qed.

End Accounting.

(** ** Where the running total goes wrong *)


(** C4. A sweep pass removes every entry past expiration and leaves the
    running total as it was; on the store holding the single 40-byte entry
    [a] that expired at instant 10, the pass at instant 11 empties the map
    and still reports 40 bytes, where [evictExpired] reports 0. *)
Theorem cleanup_pass_keeps_running_total range c now :
  (∀ m, range m ≡ₚ map_to_list m) →
  let c' := exec (cleanup_pass range now) c in
  items c' = filter (unexpired now) (items c) ∧
  currentSize c' = currentSize c ∧
  (let c1 := exec (Set_ range "a" v40 10 0) store100 in
   items (exec (cleanup_pass range 11) c1) = ∅ ∧
   currentSize (exec (cleanup_pass range 11) c1) = 40 ∧
   currentSize (exec (evictExpired range 11) c1) = 0).
Proof.
  intros Hr. cbv zeta. rewrite !cleanup_pass_spec by done.
  split; [done|]. split; [done|].
  rewrite evictExpired_any_order by done.
  rewrite (Set_any_order range Hr) by distinct_by_computation.
  by vm_compute.
Qed.

(** C2. The running total does not stay equal to the sum of the stored
    sizes: after [Set("a", v, 10)] at instant 0 it is, and after the sweep
    pass at instant 11 the map is empty while the total still reads 40. *)
Theorem sweep_breaks_accounting :
  let c1 := exec (Set_ map_to_list "a" v40 10 0) store100 in
  let c2 := exec (cleanup_pass map_to_list 11) c1 in
  accounted c1 ∧
  items c2 = ∅ ∧ stored_bytes (items c2) = 0 ∧ currentSize c2 = 40 ∧
  ¬ accounted c2.
Proof.
  cbv zeta. split; [by vm_compute|]. split; [by vm_compute|].
  split; [by vm_compute|]. split; [by vm_compute|].
  unfold accounted. vm_compute. discriminate.
Qed.

(** Replacing a key under memory pressure debits the old entry twice: the
    store ends up holding 110 bytes against a bound of 100, with a running
    total of 70. *)
Example Set_replace_debits_twice :
  let c2 := exec (Set_ map_to_list "a" v40 10 0 ;;;
                  Set_ map_to_list "b" v40 20 0) store100 in
  let c3 := exec (Set_ map_to_list "a" (VString (v40_text +:+ v40_text +:+ "012345")) 10 5) c2 in
  well_accounted c2 ∧ currentSize c2 = 80 ∧
  stored_bytes (items c3) = 110 ∧ currentSize c3 = 70.
Proof.
  cbv zeta. split; [|by vm_compute].
  split; [by vm_compute|]. split; [by vm_compute|].
  apply (bool_decide_unpack (map_Forall (λ _ it, 0 <= size_of it) _)).
  by vm_compute.
Qed.

(** C3, as stated, fails at the expiration instant itself: the entry written
    at instant 0 with a lifetime of 10 is still returned at instant 10. *)
Lemma Get_at_expiry_instant :
  let c1 := exec (Set_ map_to_list "k" (VString "v") 10 0) (New 60) in
  ∃ it, items c1 !! "k" = Some it ∧ 10 >= expiresAt it ∧
        eval (Get "k" 10) c1 = (VString "v", true).
Proof. cbv zeta. eexists. by vm_compute. Qed.

(** ** Instances *)

Lemma map_to_list_enumerates (m : gmap string item) :
  map_to_list m ≡ₚ map_to_list m.
Proof. reflexivity. Defined.

Lemma Stats_read_only_snapshot_witness :
  (∀ m : gmap string item, map_to_list m ≡ₚ map_to_list m) ∧
  let c := exec (three_inserts map_to_list) unbounded in
  Stats map_to_list 15 c
  = (<["total_items" := 3]>
     (<["expired_items" := 1]>
     (<["active_items" := 2]>
     (<["memory_used_mb" := 0]>
     (<["memory_limit_mb" := 0]>
     (<["memory_used_bytes" := 120]> ∅))))),
     c).
Proof.
  split; [exact map_to_list_enumerates|].
  exact (Stats_read_only_snapshot map_to_list
           (exec (three_inserts map_to_list) unbounded) 15
           map_to_list_enumerates).
Defined.

(** Closing a goal on a concrete store by evaluation. *)
Ltac evaluated H := vm_compute in H |- *; exact H.

Ltac nonneg_sizes_by_computation :=
  apply (bool_decide_unpack (map_Forall (λ _ it, 0 <= size_of it) _));
  vm_compute; exact I.

Lemma Get_after_Set_witness :
  let c1 := exec (Set_ map_to_list "k" (VString "v") 10 0) (New 60) in
  items c1 !! "k" = Some (Item (VString "v") 10 17) ∧
  Get "k" 10 c1 = ((VString "v", true), c1) ∧
  Get "k" 11 c1 = ((VNil, false), c1) ∧
  items c1 !! "other" = None ∧
  Get "other" 10 c1 = ((VNil, false), c1).
Proof.
  cbv zeta.
  pose proof (Get_after_Set map_to_list (New 60) "k" (VString "v") 10 0 10)
    as (H1 & H2 & H3).
  pose proof (Get_after_Set map_to_list (New 60) "k" (VString "v") 10 0 11)
    as (_ & H2' & _).
  assert (items (exec (Set_ map_to_list "k" (VString "v") 10 0) (New 60))
            !! "other" = None) as Hnone by (vm_compute; reflexivity).
  specialize (H3 _ _ Hnone).
  split; [evaluated H1|]. split; [evaluated H2|]. split; [evaluated H2'|].
  split; [exact Hnone|exact H3].
Defined.

Lemma Set_oversized_stored_witness :
  let c := exec (Set_ map_to_list "b" v40 20 0) store100 in
  0 < maxMemory c ∧ maxMemory c < estimateSize v112 ∧
  (∀ k it, items c !! k = Some it → 0 <= size_of it) ∧
  let c' := exec (Set_ map_to_list "big" v112 0 1) c in
  items c' !! "big" = Some (Item v112 61 112) ∧
  maxMemory c' = 100 ∧
  100 < stored_bytes (items c').
Proof.
  cbv zeta.
  set (c := exec (Set_ map_to_list "b" v40 20 0) store100).
  assert (0 < maxMemory c) as Hmax by (vm_compute; reflexivity).
  assert (maxMemory c < estimateSize v112) as Hbig by (vm_compute; reflexivity).
  assert (∀ k it, items c !! k = Some it → 0 <= size_of it) as Hpos
    by nonneg_sizes_by_computation.
  pose proof (Set_oversized_stored map_to_list c "big" v112 0 1 Hmax Hbig)
    as (H1 & H2 & H3).
  specialize (H3 Hpos).
  split; [exact Hmax|]. split; [exact Hbig|]. split; [exact Hpos|].
  split; [evaluated H1|]. split; [evaluated H2|evaluated H3].
Defined.

Lemma Set_twice_counts_once_witness :
  let c1 := exec (Set_ map_to_list "a" v40 10 0) store100 in
  let c2 := exec (Set_ map_to_list "a" v40 10 1) c1 in
  atCapacity store100 = false ∧
  overMemory (estimateSize v40) (exec (discount_existing "a") store100) = false ∧
  atCapacity c1 = false ∧
  overMemory (estimateSize v40) (exec (discount_existing "a") c1) = false ∧
  items c2 = <["a" := Item v40 11 40]> ∅ ∧
  size (items c2) = 1%nat ∧
  currentSize c2 = 40.
Proof.
  cbv zeta.
  set (c1 := exec (Set_ map_to_list "a" v40 10 0) store100).
  assert (atCapacity store100 = false) as G1 by (vm_compute; reflexivity).
  assert (overMemory (estimateSize v40)
            (exec (discount_existing "a") store100) = false) as G2
    by (vm_compute; reflexivity).
  assert (atCapacity c1 = false) as G3 by (vm_compute; reflexivity).
  assert (overMemory (estimateSize v40)
            (exec (discount_existing "a") c1) = false) as G4
    by (vm_compute; reflexivity).
  pose proof (Set_twice_counts_once map_to_list store100 "a" v40 10 0 1
                G1 G2 G3 G4) as (H1 & H2 & H3 & H4 & _).
  rewrite H4 in H3.
  split; [exact G1|]. split; [exact G2|]. split; [exact G3|]. split; [exact G4|].
  split; [evaluated H1|]. split; [evaluated H2|evaluated H3].
Defined.

Lemma evictOldest_removes_nearest_expiry_witness :
  (∀ m : gmap string item, map_to_list m ≡ₚ map_to_list m) ∧
  (let c := exec (three_inserts map_to_list) unbounded in
   distinct_expiry (items c) ∧ 0 < 2 <= count c ∧
   count (exec (evictOldest map_to_list 2) c) = 1) ∧
  (let c := exec (Set_ map_to_list "a" v40 10 0 ;;;
                  Set_ map_to_list "b" v40 20 0) at_most_two in
   0 < maxItems c ∧ count c = maxItems c ∧ maxMemory c = 0 ∧
   (∀ k it, items c !! k = Some it → ¬ expired 5 it) ∧
   items c !! "c" = None ∧
   ∃ kmin itmin,
     items c !! kmin = Some itmin ∧
     (∀ k it, items c !! k = Some it → expiresAt itmin <= expiresAt it) ∧
     items (exec (Set_ map_to_list "c" v40 30 5) c)
     = <["c" := Item v40 (5 + effective_ttl 30 c) (estimateSize v40)]>
         (delete kmin (items c))) ∧
  items (exec (four_inserts map_to_list) (NewWithMaxItems 60 3))
  = <["k2" := Item (VString "v2") 62 18]>
    (<["k3" := Item (VString "v3") 63 18]>
    (<["k4" := Item (VString "v4") 64 18]> ∅)).
Proof.
  destruct (evictOldest_removes_nearest_expiry map_to_list map_to_list_enumerates)
    as (Hgen & Hset & Hfour).
  split; [exact map_to_list_enumerates|]. split; [|split; [|exact Hfour]].
  - cbv zeta. set (c := exec (three_inserts map_to_list) unbounded).
    assert (distinct_expiry (items c)) as Hd by distinct_by_computation.
    assert (0 < 2 <= count c) as HN
      by (vm_compute; split; [reflexivity|discriminate]).
    destruct (Hgen c 2 Hd HN) as (_ & Hcount & _).
    split; [exact Hd|]. split; [exact HN|evaluated Hcount].
  - cbv zeta.
    set (c := exec (Set_ map_to_list "a" v40 10 0 ;;;
                    Set_ map_to_list "b" v40 20 0) at_most_two).
    assert (0 < maxItems c) as H1 by (vm_compute; reflexivity).
    assert (count c = maxItems c) as H2 by (vm_compute; reflexivity).
    assert (maxMemory c = 0) as H3 by (vm_compute; reflexivity).
    assert (∀ k it, items c !! k = Some it → ¬ expired 5 it) as H4.
    { apply (bool_decide_unpack (map_Forall (λ _ it, ¬ expired 5 it) _)).
      vm_compute. exact I. }
    assert (items c !! "c" = None) as H5 by (vm_compute; reflexivity).
    split; [exact H1|]. split; [exact H2|]. split; [exact H3|].
    split; [exact H4|]. split; [exact H5|].
    exact (Hset c "c" v40 30 5 H1 H2 H3 H4 H5).
Defined.

Lemma evictToFitMemory_makes_room_witness :
  (∀ m : gmap string item, map_to_list m ≡ₚ map_to_list m) ∧
  let c := exec (Set_ map_to_list "a" v40 10 0 ;;;
                 Set_ map_to_list "b" v40 20 0) store100 in
  well_accounted c ∧ int64_range (maxMemory c) ∧ 0 <= 40 <= maxMemory c ∧
  currentSize (exec (evictToFitMemory map_to_list 40 0) c) + 40 <= 100 ∧
  currentSize c < 2 ^ 62 ∧ 0 < maxMemory c < 2 ^ 62 ∧
  items c !! "c" = None ∧ 0 <= estimateSize v40 <= maxMemory c ∧
  currentSize (exec (Set_ map_to_list "c" v40 30 0) c) <= 100 ∧
  items (exec (three_inserts map_to_list) store100)
  = <["b" := Item v40 20 40]> (<["c" := Item v40 30 40]> ∅).
Proof.
  cbv zeta.
  set (c := exec (Set_ map_to_list "a" v40 10 0 ;;;
                  Set_ map_to_list "b" v40 20 0) store100).
  assert (well_accounted c) as Hw.
  { split; [vm_compute; reflexivity|]. split; [by vm_compute|].
    nonneg_sizes_by_computation. }
  assert (int64_range (maxMemory c)) as Hm by (by vm_compute).
  assert (0 <= 40 <= maxMemory c) as Hsz by (by vm_compute).
  assert (currentSize c < 2 ^ 62) as Hcs by (vm_compute; reflexivity).
  assert (0 < maxMemory c < 2 ^ 62) as Hmax by (by vm_compute).
  assert (items c !! "c" = None) as Hfresh by (vm_compute; reflexivity).
  assert (0 <= estimateSize v40 <= maxMemory c) as Hv by (by vm_compute).
  destruct (evictToFitMemory_makes_room map_to_list map_to_list_enumerates)
    as (Hfit & Hset & Hthree & _).
  destruct (Hfit c 40 0 Hw Hm Hsz) as (_ & _ & Hroom & _).
  destruct (Hset c "c" v40 30 0 Hw Hcs Hmax Hfresh Hv) as [_ Hbound].
  split; [exact map_to_list_enumerates|]. split; [exact Hw|].
  split; [exact Hm|]. split; [exact Hsz|]. split; [evaluated Hroom|].
  split; [exact Hcs|]. split; [exact Hmax|]. split; [exact Hfresh|].
  split; [exact Hv|]. split; [evaluated Hbound|exact Hthree].
Defined.

Lemma cleanup_pass_keeps_running_total_witness :
  (∀ m : gmap string item, map_to_list m ≡ₚ map_to_list m) ∧
  let c1 := exec (Set_ map_to_list "a" v40 10 0) store100 in
  let c2 := exec (cleanup_pass map_to_list 11) c1 in
  items c1 !! "a" = Some (Item v40 10 40) ∧ currentSize c1 = 40 ∧
  items c2 = filter (unexpired 11) (items c1) ∧
  items c2 = ∅ ∧ currentSize c2 = 40.
Proof.
  cbv zeta.
  set (c1 := exec (Set_ map_to_list "a" v40 10 0) store100).
  destruct (cleanup_pass_keeps_running_total map_to_list c1 11
              map_to_list_enumerates) as (H1 & H2 & H3 & H4 & _).
  split; [exact map_to_list_enumerates|].
  split; [vm_compute; reflexivity|]. split; [vm_compute; reflexivity|].
  split; [exact H1|]. split; [exact H3|exact H4].
Defined.

(** * Further properties of the store and of the key builder *)

(** ** The exchange sort *)

(** X1. The sort that [evictOldest] and [evictOldestBySize] run on the
    collected entries returns the same entries, in ascending order of
    expiration. *)
Theorem sortByExpiry_sorts xs :
  sortByExpiry xs ≡ₚ xs ∧ StronglySorted expires_le (sortByExpiry xs) ∧
  length (sortByExpiry xs) = length xs.
Proof.
  split; [apply sortByExpiry_perm|]. split; [apply sortByExpiry_sorted|].
  apply Permutation_length, sortByExpiry_perm.
Qed.

(** ** Delete and Clear *)

Lemma eval_Get key now c :
  eval (Get key now) c
  = match items c !! key with
    | None => (VNil, false)
    | Some it => if After now (expiresAt it) then (VNil, false)
                 else (value_of it, true)
    end.
Proof.
  unfold Get, eval, bind, get. destruct (items c !! key) as [it|]; [|done].
  by destruct (After _ _).
Qed.

Lemma exec_Delete key c :
  exec (Delete key) c
  = match items c !! key with
    | Some it => set_items (delete key (items c))
                   (set_currentSize (sub64 (currentSize c) (size_of it)) c)
    | None => c
    end.
Proof. unfold Delete. rewrite exec_get. by destruct (items c !! key). Qed.

(** X2. [Delete(key)] removes the entry of [key] and no other, so a [Get] of
    [key] finds nothing afterwards and a [Get] of any other key returns what
    it returned before; it keeps a correct running total correct; and on a
    key that is not stored it leaves the store exactly as it was. *)
Theorem Delete_removes_only_key key c :
  let c' := exec (Delete key) c in
  items c' = delete key (items c) ∧
  (∀ now, eval (Get key now) c' = (VNil, false)) ∧
  (∀ k now, k ≠ key → eval (Get k now) c' = eval (Get k now) c) ∧
  (accounted c → accounted c') ∧
  (items c !! key = None → c' = c) ∧
  defaultTTL c' = defaultTTL c ∧ maxItems c' = maxItems c ∧
  maxMemory c' = maxMemory c.
Proof.
  cbv zeta.
  assert (items (exec (Delete key) c) = delete key (items c)) as Hit.
  { rewrite exec_Delete. destruct (items c !! key) eqn:E; [done|].
    by rewrite delete_id. }
  split; [exact Hit|]. split.
  { intros now. by rewrite eval_Get, Hit, lookup_delete_eq. }
  split.
  { intros k now Hne. by rewrite !eval_Get, Hit, lookup_delete_ne. }
  split; [apply Delete_accounted|]. split.
  { intros Hnone. by rewrite exec_Delete, Hnone. }
  rewrite exec_Delete. by destruct (items c !! key).
Qed.

(** X3. [Clear()] leaves an empty store with a running total of zero and the
    configuration it had: every [Get] finds nothing and [Stats] reports no
    items and no memory in use. *)
Theorem Clear_empties range c now :
  (∀ m, range m ≡ₚ map_to_list m) →
  let c' := exec Clear c in
  items c' = ∅ ∧ currentSize c' = 0 ∧ accounted c' ∧
  (∀ key, eval (Get key now) c' = (VNil, false)) ∧
  eval (Stats range now) c' !! "total_items" = Some 0 ∧
  eval (Stats range now) c' !! "expired_items" = Some 0 ∧
  eval (Stats range now) c' !! "active_items" = Some 0 ∧
  eval (Stats range now) c' !! "memory_used_bytes" = Some 0 ∧
  defaultTTL c' = defaultTTL c ∧ maxItems c' = maxItems c ∧
  maxMemory c' = maxMemory c.
Proof.
  intros Hr. cbv zeta. split; [done|]. split; [done|].
  split; [apply Clear_accounted|].
  split; [intros key; rewrite eval_Get; simpl; by rewrite lookup_empty|].
  assert (range ∅ = []) as Hnil.
  { apply Permutation_nil. by rewrite Hr, map_to_list_empty. }
  unfold Stats, eval, bind, get, ret. simpl. rewrite Hnil. simpl.
  unfold count. simpl. rewrite map_size_empty. by repeat split.
Qed.

(** ** The purge and the sweep *)

(** X4. [evictExpired] removes exactly the entries past expiration, keeps
    every other entry as it was, debits what it removes so that a correct
    running total stays correct, and leaves the configuration alone. *)
Theorem evictExpired_purges range c now :
  (∀ m, range m ≡ₚ map_to_list m) →
  let c' := exec (evictExpired range now) c in
  items c' = filter (unexpired now) (items c) ∧
  (∀ k it, items c' !! k = Some it ↔ items c !! k = Some it ∧ now <= expiresAt it) ∧
  (accounted c → accounted c') ∧
  defaultTTL c' = defaultTTL c ∧ maxItems c' = maxItems c ∧
  maxMemory c' = maxMemory c.
Proof.
  intros Hr. cbv zeta.
  pose proof (evictExpired_spec range c now Hr) as Hit.
  fold (unexpired now) in Hit.
  split; [exact Hit|]. split.
  { intros k it. rewrite Hit, map_lookup_filter_Some.
    unfold unexpired, expired. simpl. split; intros [? ?]; split; [done|lia|done|lia]. }
  split; [by apply evictExpired_accounted|].
  by destruct (shrinks_evictExpired range now c) as (_ & ? & ? & ?).
Qed.

Lemma Get_filter_unexpired t now key c m' :
  t <= now → m' = filter (unexpired t) (items c) →
  (match m' !! key with
   | None => (VNil, false)
   | Some it => if After now (expiresAt it) then (VNil, false)
                else (value_of it, true)
   end)
  = eval (Get key now) c.
Proof.
  intros Hle ->. rewrite eval_Get, map_lookup_filter.
  destruct (items c !! key) as [it|]; [|done]. simpl.
  unfold unexpired, expired. simpl.
  case_guard as Hg; simpl; [done|].
  unfold After. destruct (Z.ltb_spec (expiresAt it) now); [done|lia].
Qed.

(** X5. Removing expired entries is invisible to readers: after a sweep pass
    or an [evictExpired] at instant [t], a [Get] at any instant from [t] on
    returns what it would have returned without it. *)
Theorem purge_invisible_to_Get range c t now key :
  (∀ m, range m ≡ₚ map_to_list m) → t <= now →
  eval (Get key now) (exec (cleanup_pass range t) c) = eval (Get key now) c ∧
  eval (Get key now) (exec (evictExpired range t) c) = eval (Get key now) c.
Proof.
  intros Hr Hle. split.
  - rewrite eval_Get at 1. apply (Get_filter_unexpired t); [done|].
    by rewrite cleanup_pass_spec.
  - rewrite eval_Get at 1. apply (Get_filter_unexpired t); [done|].
    by rewrite evictExpired_spec.
Qed.

(** X6. However many times the sweep runs, it leaves exactly the entries
    that none of its passes found past expiration, and the running total
    and the configuration as they were. *)
Theorem cleanup_over_ticks range c ticks :
  (∀ m, range m ≡ₚ map_to_list m) →
  exec (cleanup range ticks) c
  = set_items (filter (survives ticks) (items c)) c.
Proof.
  intros Hr. revert c. unfold cleanup.
  induction ticks as [|t ticks IH]; intros c.
  - simpl. rewrite exec_ret.
    rewrite map_filter_id by (intros; constructor). by destruct c.
  - simpl. rewrite exec_seq, cleanup_pass_spec, IH by done.
    unfold set_items. simpl. f_equal.
    rewrite map_filter_filter. apply map_filter_ext.
    intros k it _. unfold survives. rewrite Forall_cons.
    unfold unexpired. simpl. tauto.
Qed.

(** ** Bounds and frames of Set *)

Section SetBounds.

Variable range : gmap string item → list keyItem.
Hypothesis range_perm : ∀ m, range m ≡ₚ map_to_list m.

Lemma count_evictOldest n c :
  0 < n <= count c → count (exec (evictOldest range n) c) = count c - n.
Proof.
  intros Hn. rewrite exec_evictOldest.
  destruct (Z.leb_spec n 0) as [|_]; [lia|].
  set (L := sortByExpiry (range (items c))).
  assert (L ≡ₚ map_to_list (items c)) as HL
    by (unfold L; by rewrite sortByExpiry_perm).
  pose proof (Permutation_length HL) as Hlen.
  rewrite length_map_to_list in Hlen. unfold count in *.
  pose proof (prefix_size (items c) L HL (Z.to_nat n) ltac:(lia)). simpl. lia.
Qed.

(** What the first block of [Set] leaves: fewer items than the bound. *)
Lemma capacity_step_makes_room now c :
  0 < maxItems c →
  let c1 :=
    if atCapacity c
    then let c' := exec (evictExpired range now) c in
         if maxItems c' <=? count c'
         then exec (evictOldest range (count c' - maxItems c' + 1)) c'
         else c'
    else c in
  count c1 < maxItems c.
Proof.
  intros Hmax. cbv zeta. unfold atCapacity.
  destruct (Z.ltb_spec 0 (maxItems c)) as [_|]; [|lia]. simpl.
  destruct (Z.leb_spec (maxItems c) (count c)) as [Hfull|]; [|lia].
  destruct (shrinks_evictExpired range now c) as (_ & _ & Hm & _).
  set (c' := exec (evictExpired range now) c) in *.
  destruct (Z.leb_spec (maxItems c') (count c')) as [Hfull'|]; [|lia].
  rewrite count_evictOldest by lia. lia.
Qed.

Lemma Set_no_memory_bound_accounted key v ttl now c :
  maxMemory c <= 0 → accounted c →
  accounted (exec (Set_ range key v ttl now) c).
Proof.
  intros Hmem Hacc. rewrite exec_Set. cbv zeta.
  set (c1 := if atCapacity c then _ else c).
  assert (accounted c1 ∧ shrinks c c1) as [Hacc1 (_ & _ & _ & Hm1)].
  { unfold c1. destruct (atCapacity c); [|split; [done|apply shrinks_refl]].
    pose proof (evictExpired_accounted range range_perm now c Hacc).
    destruct (_ <=? _); [|split; [done|apply shrinks_evictExpired]].
    split; [by apply evictOldest_accounted|].
    eapply shrinks_trans; [apply shrinks_evictExpired|apply shrinks_evictOldest]. }
  pose proof (discount_existing_accounted key c1 Hacc1) as Hcs2.
  pose proof (items_discount_existing key c1) as Hit2.
  destruct (shrinks_discount_existing key c1) as (_ & _ & _ & Hm2).
  set (c2 := exec (discount_existing key) c1) in *.
  assert (overMemory (estimateSize v) c2 = false) as ->.
  { unfold overMemory. destruct (Z.ltb_spec 0 (maxMemory c2)); [lia|done]. }
  unfold accounted. simpl. rewrite Hcs2, Hit2, stored_bytes_insert_any. simpl.
  unfold add64. rewrite wrap64_add_l. f_equal. lia.
Qed.

End SetBounds.

(** X7. [Set] enforces the item bound: when [maxItems] is positive the store
    holds at most [maxItems] entries after any [Set], whatever it held
    before. *)
Theorem Set_enforces_item_bound range c key v ttl now :
  (∀ m, range m ≡ₚ map_to_list m) → 0 < maxItems c →
  let c' := exec (Set_ range key v ttl now) c in
  count c' <= maxItems c' ∧ maxItems c' = maxItems c.
Proof.
  intros Hr Hmax. cbv zeta.
  pose proof (capacity_step_makes_room range Hr now c Hmax) as Hroom.
  cbv zeta in Hroom. rewrite exec_Set. cbv zeta.
  set (c1 := if atCapacity c then _ else c) in *.
  assert (maxItems c1 = maxItems c) as Hm1.
  { unfold c1. destruct (atCapacity c); [|done].
    destruct (shrinks_evictExpired range now c) as (_ & _ & Hm & _).
    destruct (_ <=? _); [|done].
    destruct (shrinks_evictOldest range
                (count (exec (evictExpired range now) c)
                 - maxItems (exec (evictExpired range now) c) + 1)
                (exec (evictExpired range now) c)) as (_ & _ & Hm' & _).
    congruence. }
  pose proof (shrinks_discount_existing key c1) as Hs2.
  set (c2 := exec (discount_existing key) c1) in *.
  set (c3 := if overMemory _ c2 then _ else c2).
  assert (shrinks c2 c3) as Hs3.
  { unfold c3. destruct (overMemory _ c2);
      [apply shrinks_evictToFitMemory|apply shrinks_refl]. }
  destruct (shrinks_trans _ _ _ Hs2 Hs3) as (Hsub & _ & Hm3 & _).
  simpl. split; [|congruence].
  apply map_subseteq_size in Hsub.
  pose proof (map_size_insert key
                (Item v (now + effective_ttl ttl c) (estimateSize v)) (items c3))
    as Hsz.
  unfold count in *. simpl. rewrite Hsz.
  destruct (items c3 !! key); simpl; lia.
Qed.

(** X8. [Set] never adds or alters an entry under another key, and never
    changes the configuration: whatever it leaves under a key other than the
    one it writes was there before, unchanged. *)
Theorem Set_touches_only_its_key range c key v ttl now :
  let c' := exec (Set_ range key v ttl now) c in
  (∀ k it, k ≠ key → items c' !! k = Some it → items c !! k = Some it) ∧
  defaultTTL c' = defaultTTL c ∧ maxItems c' = maxItems c ∧
  maxMemory c' = maxMemory c.
Proof.
  cbv zeta.
  destruct (Set_inserts range key v ttl now c)
    as (c3 & (Hsub & Ht & Hi & Hm) & ->).
  simpl. split; [|done].
  intros k it Hne. rewrite lookup_insert_ne by done.
  intros Hk. by eapply lookup_weaken.
Qed.

(** X9. A store with neither bound set never evicts: with [maxItems] and
    [maxMemory] at zero (or below), [Set] is the insertion of the new entry
    and nothing else, so every other key keeps its entry. *)
Theorem Set_unbounded_inserts range c key v ttl now :
  maxItems c <= 0 → maxMemory c <= 0 →
  let c' := exec (Set_ range key v ttl now) c in
  items c'
  = <[key:=Item v (now + effective_ttl ttl c) (estimateSize v)]> (items c) ∧
  (∀ k, k ≠ key → items c' !! k = items c !! k) ∧
  maxItems c' = maxItems c ∧ maxMemory c' = maxMemory c.
Proof.
  intros Hi Hm. cbv zeta.
  assert (atCapacity c = false) as Hcap.
  { unfold atCapacity. destruct (Z.ltb_spec 0 (maxItems c)); [lia|done]. }
  assert (overMemory (estimateSize v) (exec (discount_existing key) c) = false)
    as Hmem.
  { unfold overMemory.
    destruct (shrinks_discount_existing key c) as (_ & _ & _ & ->).
    destruct (Z.ltb_spec 0 (maxMemory c)); [lia|done]. }
  rewrite exec_Set_quiet by done. cbv zeta. simpl.
  rewrite items_discount_existing.
  split; [done|]. split; [intros k Hne; by rewrite lookup_insert_ne|].
  by destruct (shrinks_discount_existing key c) as (_ & _ & -> & ->).
Qed.

(** ** The running total over sequences of calls *)

Lemma exec_Get_discard key now c : exec (_ <- Get key now ;; ret tt) c = c.
Proof.
  unfold Get, exec, bind, get, ret. simpl.
  destruct (items c !! key) as [it|]; [|done]. by destruct (After _ _).
Qed.

Lemma exec_Stats_discard range now c :
  exec (_ <- Stats range now ;; ret tt) c = c.
Proof. reflexivity. Qed.

Lemma exec_run_op_config range now o c :
  maxMemory (exec (run_op range now o) c) = maxMemory c.
Proof.
  destruct o as [key v ttl|key|key| |]; simpl.
  - destruct (Set_inserts range key v ttl now c) as (c3 & (_ & _ & _ & Hm) & ->).
    done.
  - by rewrite exec_Get_discard.
  - rewrite exec_Delete. by destruct (items c !! key).
  - done.
  - by rewrite exec_Stats_discard.
Qed.

Lemma run_op_accounted range now o c :
  (∀ m, range m ≡ₚ map_to_list m) →
  maxMemory c <= 0 → accounted c → accounted (exec (run_op range now o) c).
Proof.
  intros Hr Hmem Hacc. destruct o as [key v ttl|key|key| |]; simpl.
  - by apply Set_no_memory_bound_accounted.
  - by rewrite exec_Get_discard.
  - by apply Delete_accounted.
  - apply Clear_accounted.
  - by rewrite exec_Stats_discard.
Qed.

(** X10. On a store without a memory bound, the running total stays the
    sum of the stored sizes (on 64 bits) through any sequence of [Set],
    [Get], [Delete], [Clear] and [Stats] calls, replacements included. *)
Theorem accounting_kept_without_memory_bound range calls c :
  (∀ m, range m ≡ₚ map_to_list m) →
  maxMemory c <= 0 → accounted c →
  accounted (exec (run_ops range calls) c).
Proof.
  intros Hr. revert c. unfold run_ops.
  induction calls as [|[now o] calls IH]; intros c Hmem Hacc; [done|].
  simpl. rewrite exec_seq. apply IH.
  - by rewrite exec_run_op_config.
  - by apply run_op_accounted.
Qed.

(** X11. Writing a key that is not in the store keeps a correct running
    total correct, whichever bounds are set and whatever gets evicted. *)
Theorem Set_new_key_keeps_accounting range c key v ttl now :
  (∀ m, range m ≡ₚ map_to_list m) →
  items c !! key = None → accounted c →
  accounted (exec (Set_ range key v ttl now) c).
Proof. intros Hr. by apply Set_accounted_new_key. Qed.

(** ** Edges of the two evictions *)

Lemma delete_keys_all (m : gmap string item) (L : list keyItem) :
  L ≡ₚ map_to_list m → delete_keys L m = ∅.
Proof.
  intros HL. apply map_empty. intros k. rewrite delete_keys_lookup.
  destruct (decide (k ∈ L.*1)) as [|Hnin]; [done|].
  destruct (m !! k) as [it|] eqn:E; [|done].
  destruct Hnin. apply list_elem_of_fmap. exists (k, it). split; [done|].
  by apply (L_lookup m L HL).
Qed.

(** X12. [evictOldest(n)] removes [min(n, len(items))] entries: none when
    [n <= 0], all of them when [n] reaches the number stored; it only
    removes, and keeps a correct running total correct. *)
Theorem evictOldest_removes_count range c n :
  (∀ m, range m ≡ₚ map_to_list m) →
  let c' := exec (evictOldest range n) c in
  (n <= 0 → c' = c) ∧
  (0 < n → count c' = Z.max 0 (count c - n)) ∧
  (count c <= n → 0 < n → items c' = ∅) ∧
  items c' ⊆ items c ∧
  (accounted c → accounted c').
Proof.
  intros Hr. cbv zeta.
  assert (sortByExpiry (range (items c)) ≡ₚ map_to_list (items c)) as HL
    by (by rewrite sortByExpiry_perm).
  pose proof (Permutation_length HL) as Hlen.
  rewrite length_map_to_list in Hlen.
  assert (count c <= n → 0 < n → items (exec (evictOldest range n) c) = ∅)
    as Hall.
  { intros Hge Hpos. rewrite exec_evictOldest.
    destruct (Z.leb_spec n 0) as [|_]; [lia|]. simpl.
    rewrite take_ge by (unfold count in Hge; lia).
    by apply delete_keys_all. }
  split; [|split; [|split; [exact Hall|split]]].
  - intros Hle. rewrite exec_evictOldest.
    by destruct (Z.leb_spec n 0) as [_|]; [|lia].
  - intros Hpos. destruct (Z.le_gt_cases n (count c)) as [Hle|Hgt].
    + rewrite count_evictOldest by (done || lia). lia.
    + unfold count at 1. rewrite Hall by lia. rewrite map_size_empty.
      unfold count in *. lia.
  - by destruct (shrinks_evictOldest range n c) as [? _].
  - by apply evictOldest_accounted.
Qed.

(** X13. [evictOldestBySize(t)] on a correctly accounted store does nothing
    for [t <= 0]; otherwise it frees at least [t] bytes unless it runs out
    of entries, in which case the store is empty; the running total stays
    the exact sum of what is left. *)
Theorem evictOldestBySize_frees range c t :
  (∀ m, range m ≡ₚ map_to_list m) → well_accounted c →
  let c' := exec (evictOldestBySize range t) c in
  (t <= 0 → c' = c) ∧
  (0 < t → items c' = ∅ ∨ t <= currentSize c - currentSize c') ∧
  items c' ⊆ items c ∧
  well_accounted c' ∧
  0 <= currentSize c' <= currentSize c.
Proof.
  intros Hr Hw. cbv zeta. rewrite exec_evictOldestBySize.
  pose proof Hw as (Hacc & Hrange & Hpos).
  assert (0 <= currentSize c) as H0 by (rewrite Hacc; by apply stored_bytes_nonneg).
  destruct (Z.leb_spec t 0) as [Hle|Hgt].
  { split; [done|]. split; [lia|]. split; [done|]. split; [done|lia]. }
  set (L := sortByExpiry (range (items c))).
  assert (L ≡ₚ map_to_list (items c)) as HL
    by (unfold L; by rewrite sortByExpiry_perm).
  assert (Forall (λ ki : keyItem, 0 <= size_of ki.2) L) as HposL.
  { apply Forall_forall. intros [k it] Hin. apply (Hpos k).
    by apply (L_lookup (items c) L HL). }
  assert (total_size L = currentSize c) as HtotL
    by (rewrite (total_size_perm _ _ HL), total_size_map_to_list; lia).
  destruct (freed_prefix_take L 0 t) as [j Hj].
  pose proof (evicted_well_accounted (take j L) c
                (prefix_NoDup (items c) L HL j)
                (prefix_lookup (items c) L HL j) Hw) as [Hw' Hcs'].
  pose proof (evicted_debit_nonneg (take j L) c
                (prefix_lookup (items c) L HL j) Hw) as Hnn.
  rewrite Hj. split; [lia|]. split.
  { intros _.
    destruct (freed_prefix_enough L 0 t) as [Hall|Hen];
      [lia|done|unfold int64_range in *; lia| |].
    - left. simpl. rewrite <- Hj, Hall. by apply delete_keys_all.
    - right. rewrite Hcs', <- Hj. lia. }
  split; [apply delete_keys_subseteq|]. split; [exact Hw'|].
  destruct Hw' as (Hacc' & _ & Hpos').
  split; [rewrite Hacc'; by apply stored_bytes_nonneg|lia].
Qed.

(** ** The size estimate *)

(** X14. For a value whose lengths are below [2^32], behind fewer than
    [2^32] pointers, no 64-bit operation of [estimateSize] wraps: the
    estimate is the one the same arithmetic gives on unbounded integers; it
    lies between 0 and [2^37 + 24] plus 8 per pointer followed, and it is 0
    only for a map without entries or a struct without fields. *)
Theorem estimateSize_modest v :
  modest v → indirections v < 2 ^ 32 →
  estimateSize v = estimate_exact v ∧
  0 <= estimateSize v <= 2 ^ 37 + 24 + 8 * indirections v ∧
  0 <= indirections v ∧
  (estimateSize v = 0 → v = VMap [] ∨ v = VStruct []).
Proof.
  revert v. fix IH 1. intros v Hm Hd.
  destruct v as [|s|boxed elems|entries|[e|]|fields|w]; simpl in *.
  - split; [done|]. split; [lia|]. split; [lia|]. lia.
  - rewrite wrap64_id by (unfold int64_range; lia).
    split; [done|]. split; [lia|]. split; [lia|]. lia.
  - unfold add64, mul64, len in *.
    assert (wrap64 (Z.of_nat (length elems) * 8) = Z.of_nat (length elems) * 8)
      as -> by (apply wrap64_id; unfold int64_range; lia).
    destruct ((0 <? Z.of_nat (length elems)) && boxed).
    + rewrite (wrap64_id (_ * 8 * 4)) by (unfold int64_range; lia).
      rewrite wrap64_id by (unfold int64_range; lia).
      split; [done|]. split; [lia|]. split; [lia|]. lia.
    + rewrite wrap64_id by (unfold int64_range; lia).
      split; [done|]. split; [lia|]. split; [lia|]. lia.
  - unfold mul64, len in *. rewrite wrap64_id by (unfold int64_range; lia).
    split; [done|]. split; [lia|]. split; [lia|]. intros Hz.
    left. destruct entries; [done|]. simpl in Hz. lia.
  - assert (0 <= indirections e) as Hi.
    { clear -e. revert e. fix IHe 1. intros e.
      destruct e as [| | | |[e'|]| |]; simpl; try lia.
      pose proof (IHe e'). lia. }
    destruct (IH e Hm ltac:(lia)) as (Heq & Hb & _).
    unfold add64. rewrite wrap64_id by (unfold int64_range; lia).
    split; [by rewrite Heq|]. split; [lia|]. split; [lia|]. lia.
  - split; [done|]. split; [lia|]. split; [lia|]. lia.
  - unfold mul64, len in *. rewrite wrap64_id by (unfold int64_range; lia).
    split; [done|]. split; [lia|]. split; [lia|]. intros Hz.
    right. destruct fields; [done|]. simpl in Hz. lia.
  - split; [done|]. split; [lia|]. split; [lia|]. lia.
Qed.

(** ** The key builder, in general *)

Lemma le_bytes_length n x : length (MD5.le_bytes n x) = n.
Proof. revert x. induction n as [|n IH]; intros x; simpl; [done|]. by rewrite IH. Qed.

Lemma le_bytes_range n x : Forall (λ b, 0 <= b < 256) (MD5.le_bytes n x).
Proof.
  revert x. induction n as [|n IH]; intros x; simpl; constructor; [|apply IH].
  apply Z.mod_pos_bound. lia.
Qed.

Lemma Sum_bytes msg :
  length (MD5.Sum msg) = 16%nat ∧ Forall (λ b, 0 <= b < 256) (MD5.Sum msg).
Proof.
  unfold MD5.Sum. destruct (MD5.blocks _ _ _) as [a b c d]. split.
  - by rewrite !length_app, !le_bytes_length.
  - rewrite !Forall_app. repeat split; apply le_bytes_range.
Qed.

Lemma hex_digit_in d : 0 <= d < 16 → hex_digit d ∈ hex_digits.
Proof.
  intros Hd. unfold hex_digit. fold hex_digits.
  apply list_elem_of_In, nth_In.
  change (length hex_digits) with 16%nat. lia.
Qed.

Lemma sprintf_x_hex bs :
  Forall (λ b, 0 <= b < 256) bs →
  String.length (sprintf_x bs) = (2 * length bs)%nat ∧
  Forall (λ a, a ∈ hex_digits) (list_ascii_of_string (sprintf_x bs)).
Proof.
  induction 1 as [|b bs Hb _ [IHl IHf]]; simpl; [by split|].
  split; [lia|].
  assert (0 <= b / 16 < 16) as Hhi
    by (split; [apply Z.div_pos; lia|apply Z.div_lt_upper_bound; lia]).
  pose proof (Z.mod_pos_bound b 16 ltac:(lia)) as Hlo.
  constructor; [by apply hex_digit_in|].
  constructor; [by apply hex_digit_in|done].
Qed.

(** X15. A key is always 32 characters long, each one of [0-9a-f], whatever
    the components and however many there are. *)
Theorem GenerateKey_fixed_width components :
  String.length (GenerateKey components) = 32%nat ∧
  Forall (λ a, a ∈ hex_digits) (list_ascii_of_string (GenerateKey components)).
Proof.
  unfold GenerateKey.
  destruct (Sum_bytes (bytes_of_string (combine components))) as [Hlen Hr].
  destruct (sprintf_x_hex _ Hr) as [Hl Hf]. rewrite Hlen in Hl. by split.
Qed.

Lemma append_cons x (a b : string) : String x a +:+ b = String x (a +:+ b).
Proof. reflexivity. Qed.

Lemma append_empty_l (b : string) : "" +:+ b = b.
Proof. reflexivity. Qed.

Lemma append_empty_r (a : string) : a +:+ "" = a.
Proof.
  induction a as [|x a IH]; [done|]. by rewrite append_cons, IH.
Qed.

Lemma string_app_assoc (a b c : string) : (a +:+ b) +:+ c = a +:+ (b +:+ c).
Proof.
  induction a as [|x a IH]; [done|]. by rewrite !append_cons, IH.
Qed.

Lemma combine_from acc components :
  fold_left (fun combined comp => combined +:+ (comp +:+ "|")) components acc
  = acc +:+ joined components.
Proof.
  revert acc. induction components as [|comp rest IH]; intros acc; simpl.
  - by rewrite append_empty_r.
  - rewrite IH, !string_app_assoc. by rewrite append_cons, append_empty_l.
Qed.

Lemma combine_joined components : combine components = joined components.
Proof. unfold combine. by rewrite combine_from, append_empty_l. Qed.

Lemma component_split s1 s2 r1 r2 :
  no_bar s1 → no_bar s2 →
  s1 +:+ String "|" r1 = s2 +:+ String "|" r2 → s1 = s2 ∧ r1 = r2.
Proof.
  revert s2. induction s1 as [|a s1 IH]; intros [|b s2] H1 H2 Heq;
    rewrite ?append_cons, ?append_empty_l in Heq; simpl in H1, H2.
  - by inv Heq.
  - inv Heq. by destruct H2.
  - inv Heq. by destruct H1.
  - inv Heq. destruct H1 as [_ H1], H2 as [_ H2].
    destruct (IH s2 H1 H2 ltac:(done)) as [-> ->]. done.
Qed.

(** X16. Components that do not contain the separator are recovered from
    the string that gets hashed: two lists of such components that are
    concatenated to the same string are the same list, so their keys can
    only collide through the hash. *)
Theorem combine_injective_without_separator l1 l2 :
  Forall no_bar l1 → Forall no_bar l2 →
  combine l1 = combine l2 → l1 = l2.
Proof.
  rewrite !combine_joined. intros H1. revert l2.
  induction H1 as [|s1 l1 Hs1 _ IH]; intros l2 H2 Heq.
  - destruct H2 as [|s2 l2 _ _]; [done|]. simpl in Heq.
    destruct s2; rewrite ?append_cons, ?append_empty_l in Heq; discriminate.
  - destruct H2 as [|s2 l2 Hs2 H2]; simpl in Heq.
    { destruct s1; rewrite ?append_cons, ?append_empty_l in Heq; discriminate. }
    destruct (component_split _ _ _ _ Hs1 Hs2 Heq) as [-> Hr].
    f_equal. by apply IH.
Qed.

(** ** The constructors *)

(** X17. The limit given to [NewWithMemoryLimit] in megabytes is the limit
    [Stats] reports, for any limit below [2^43] megabytes in absolute value;
    the store starts empty, and a limit of zero or below sets no memory
    bound at all. *)
Theorem NewWithMemoryLimit_round_trip range ttl maxMemoryMB now :
  - 2 ^ 43 < maxMemoryMB < 2 ^ 43 →
  let c := NewWithMemoryLimit ttl maxMemoryMB in
  maxMemory c = maxMemoryMB * 1048576 ∧
  eval (Stats range now) c !! "memory_limit_mb" = Some maxMemoryMB ∧
  items c = ∅ ∧ accounted c ∧
  (maxMemoryMB <= 0 → ∀ itemSize, overMemory itemSize c = false).
Proof.
  intros Hmb. cbv zeta.
  assert (maxMemory (NewWithMemoryLimit ttl maxMemoryMB) = maxMemoryMB * 1048576)
    as Hmax.
  { simpl. unfold mul64.
    rewrite (wrap64_id (maxMemoryMB * 1024)) by (unfold int64_range; lia).
    rewrite wrap64_id by (unfold int64_range; lia). lia. }
  split; [exact Hmax|]. split.
  { unfold Stats, eval, bind, get, ret. cbn [fst].
    rewrite !lookup_insert_ne by done. rewrite lookup_insert_eq.
    rewrite Hmax. f_equal. unfold MB. apply Z.quot_mul. lia. }
  split; [done|]. split.
  { unfold accounted. simpl. by rewrite stored_bytes_empty. }
  intros Hle itemSize. unfold overMemory. rewrite Hmax.
  destruct (Z.ltb_spec 0 (maxMemoryMB * 1048576)); [lia|done].
Qed.

(** ** How Set composes with Delete, and what an oversized value does *)

(** X18. [Delete] undoes a [Set] of a new key that triggered no eviction:
    the store is again the one it was, running total included. *)
Theorem Delete_undoes_Set range c key v ttl now :
  items c !! key = None → int64_range (currentSize c) →
  atCapacity c = false → overMemory (estimateSize v) c = false →
  exec (Delete key) (exec (Set_ range key v ttl now) c) = c.
Proof.
  intros Hfresh Hrange Hcap Hmem.
  assert (exec (discount_existing key) c = c) as Hd
    by (by rewrite exec_discount_existing, Hfresh).
  rewrite exec_Set_quiet by (done || by rewrite Hd).
  cbv zeta. rewrite Hd, exec_Delete. simpl. rewrite lookup_insert_eq. simpl.
  rewrite delete_insert_eq, delete_id by done.
  unfold sub64, add64. rewrite wrap64_sub_l.
  replace (currentSize c + estimateSize v - estimateSize v)
    with (currentSize c) by lia.
  rewrite wrap64_id by done. by destruct c.
Qed.

Section Oversized.

Variable range : gmap string item → list keyItem.
Hypothesis range_perm : ∀ m, range m ≡ₚ map_to_list m.

Lemma evictOldestBySize_everything t c :
  well_accounted c → currentSize c < t →
  items (exec (evictOldestBySize range t) c) = ∅ ∧
  currentSize (exec (evictOldestBySize range t) c) = 0.
Proof.
  intros Hw Ht. pose proof Hw as (Hacc & Hrange & Hpos).
  assert (0 <= currentSize c) as H0 by (rewrite Hacc; by apply stored_bytes_nonneg).
  rewrite exec_evictOldestBySize.
  destruct (Z.leb_spec t 0) as [|_]; [lia|].
  set (L := sortByExpiry (range (items c))).
  assert (L ≡ₚ map_to_list (items c)) as HL
    by (unfold L; by rewrite sortByExpiry_perm).
  assert (Forall (λ ki : keyItem, 0 <= size_of ki.2) L) as HposL.
  { apply Forall_forall. intros [k it] Hin. apply (Hpos k).
    by apply (L_lookup (items c) L HL). }
  assert (total_size L = currentSize c) as HtotL
    by (rewrite (total_size_perm _ _ HL), total_size_map_to_list; lia).
  destruct (freed_prefix_take L 0 t) as [j Hj].
  assert (freed_prefix L 0 t = L) as Hall.
  { destruct (freed_prefix_enough L 0 t) as [Hall|Hen];
      [lia|done|unfold int64_range in *; lia|done|].
    rewrite Hj in Hen.
    pose proof (total_size_app (take j L) (drop j L)) as Happ.
    rewrite take_drop in Happ.
    assert (0 <= total_size (drop j L)); [|lia].
    apply total_size_nonneg. rewrite <- (take_drop j L) in HposL.
    by apply Forall_app in HposL as [_ ?]. }
  rewrite Hall. simpl. rewrite (delete_keys_all _ _ HL). split; [done|].
  rewrite debit_range by done. rewrite HtotL.
  replace (currentSize c - currentSize c) with 0 by lia. done.
Qed.

(** Writing a new key whose value alone exceeds the memory bound flushes the
    store. *)
Lemma Set_oversized_alone c key v ttl now :
  well_accounted c → 0 < maxMemory c → maxMemory c < estimateSize v →
  currentSize c + estimateSize v < 2 ^ 63 → items c !! key = None →
  let c' := exec (Set_ range key v ttl now) c in
  items c' = {[key := Item v (now + effective_ttl ttl c) (estimateSize v)]} ∧
  currentSize c' = estimateSize v.
Proof.
  intros Hw Hmax Hbig Hsum Hfresh. cbv zeta. rewrite exec_Set. cbv zeta.
  set (c1 := if atCapacity c then _ else c).
  assert (well_accounted c1 ∧ currentSize c1 <= currentSize c ∧ shrinks c c1)
    as (Hw1 & Hle1 & Hs1).
  { unfold c1. destruct (atCapacity c); [|repeat split; [apply Hw..|lia|done]].
    destruct (evictExpired_well_accounted range range_perm now c Hw) as [Hwe Hlee].
    destruct (_ <=? _); [|split; [done|split; [done|apply shrinks_evictExpired]]].
    destruct (evictOldest_well_accounted range range_perm
                (count (exec (evictExpired range now) c)
                 - maxItems (exec (evictExpired range now) c) + 1)
                (exec (evictExpired range now) c) Hwe) as [Hwo Hleo].
    split; [done|]. split; [lia|].
    eapply shrinks_trans; [apply shrinks_evictExpired|apply shrinks_evictOldest]. }
  destruct Hs1 as (Hsub1 & _ & _ & Hm1).
  assert (items c1 !! key = None) as Hfresh1.
  { destruct (items c1 !! key) as [it|] eqn:E; [|done].
    pose proof (lookup_weaken _ _ _ _ E Hsub1). congruence. }
  rewrite exec_discount_existing, Hfresh1.
  assert (0 <= currentSize c1) as H0.
  { destruct Hw1 as (-> & _ & Hp). by apply stored_bytes_nonneg. }
  set (sz := estimateSize v) in *.
  unfold overMemory. rewrite Hm1.
  assert (add64 (currentSize c1) sz = currentSize c1 + sz) as ->
    by (apply wrap64_id; unfold int64_range; lia).
  destruct (Z.ltb_spec 0 (maxMemory c)) as [_|]; [|lia].
  destruct (Z.ltb_spec (maxMemory c) (currentSize c1 + sz)) as [_|]; [|lia].
  simpl. rewrite exec_evictToFitMemory. cbv zeta. rewrite Hm1.
  destruct (evictExpired_well_accounted range range_perm now c1 Hw1) as [Hw2 Hle2].
  set (c2 := exec (evictExpired range now) c1) in *.
  assert (0 <= currentSize c2) as H2.
  { destruct Hw2 as (-> & _ & Hp). by apply stored_bytes_nonneg. }
  assert (sub64 (maxMemory c) sz = maxMemory c - sz) as ->
    by (apply wrap64_id; unfold int64_range; lia).
  destruct (Z.ltb_spec (maxMemory c - sz) (currentSize c2)) as [_|]; [|lia].
  assert (sub64 (currentSize c2) (maxMemory c - sz)
          = currentSize c2 - (maxMemory c - sz)) as ->
    by (apply wrap64_id; unfold int64_range; lia).
  destruct (evictOldestBySize_everything
              (currentSize c2 - (maxMemory c - sz)) c2 Hw2 ltac:(lia))
    as [-> ->].
  split; [done|]. unfold add64. simpl.
  apply wrap64_id. unfold int64_range. lia.
Qed.

End Oversized.

(** X19. A value whose estimate alone exceeds the memory bound, written
    under a new key into a correctly accounted store, flushes the store:
    afterwards the new entry is the only one and the running total is its
    size. *)
Theorem Set_oversized_flushes range c key v ttl now :
  (∀ m, range m ≡ₚ map_to_list m) →
  well_accounted c → 0 < maxMemory c → maxMemory c < estimateSize v →
  currentSize c + estimateSize v < 2 ^ 63 → items c !! key = None →
  let c' := exec (Set_ range key v ttl now) c in
  items c' = {[key := Item v (now + effective_ttl ttl c) (estimateSize v)]} ∧
  currentSize c' = estimateSize v.
Proof. intros Hr. by apply Set_oversized_alone. Qed.

(** ** Instances of the further properties *)

Ltac well_accounted_by_computation :=
  split; [vm_compute; reflexivity|];
  split; [by vm_compute|nonneg_sizes_by_computation].

Lemma Clear_empties_witness :
  (∀ m : gmap string item, map_to_list m ≡ₚ map_to_list m) ∧
  let c' := exec Clear (exec (three_inserts map_to_list) unbounded) in
  items c' = ∅ ∧ currentSize c' = 0 ∧
  eval (Stats map_to_list 15) c' !! "total_items" = Some 0.
Proof.
  destruct (Clear_empties map_to_list
              (exec (three_inserts map_to_list) unbounded) 15
              map_to_list_enumerates) as (H1 & H2 & _ & _ & H3 & _).
  split; [exact map_to_list_enumerates|]. split; [exact H1|].
  split; [exact H2|exact H3].
Defined.

Lemma evictExpired_purges_witness :
  (∀ m : gmap string item, map_to_list m ≡ₚ map_to_list m) ∧
  let c := exec (three_inserts map_to_list) unbounded in
  let c' := exec (evictExpired map_to_list 15) c in
  accounted c ∧ accounted c' ∧
  items c' = filter (unexpired 15) (items c) ∧
  items c' !! "a" = None ∧ items c' !! "b" = Some (Item v40 20 40).
Proof.
  cbv zeta. set (c := exec (three_inserts map_to_list) unbounded).
  assert (accounted c) as Hacc by (unfold accounted; vm_compute; reflexivity).
  destruct (evictExpired_purges map_to_list c 15 map_to_list_enumerates)
    as (H1 & _ & H3 & _).
  split; [exact map_to_list_enumerates|]. split; [exact Hacc|].
  split; [exact (H3 Hacc)|]. split; [exact H1|].
  split; vm_compute; reflexivity.
Defined.

Lemma purge_invisible_to_Get_witness :
  (∀ m : gmap string item, map_to_list m ≡ₚ map_to_list m) ∧ 15 <= 25 ∧
  let c := exec (three_inserts map_to_list) unbounded in
  eval (Get "a" 25) (exec (cleanup_pass map_to_list 15) c) = eval (Get "a" 25) c ∧
  eval (Get "c" 25) (exec (evictExpired map_to_list 15) c) = eval (Get "c" 25) c.
Proof.
  assert (15 <= 25) as Hle by (vm_compute; discriminate).
  destruct (purge_invisible_to_Get map_to_list
              (exec (three_inserts map_to_list) unbounded) 15 25 "a"
              map_to_list_enumerates Hle) as [H1 _].
  destruct (purge_invisible_to_Get map_to_list
              (exec (three_inserts map_to_list) unbounded) 15 25 "c"
              map_to_list_enumerates Hle) as [_ H2].
  split; [exact map_to_list_enumerates|]. split; [exact Hle|].
  split; [exact H1|exact H2].
Defined.

Lemma cleanup_over_ticks_witness :
  (∀ m : gmap string item, map_to_list m ≡ₚ map_to_list m) ∧
  let c := exec (three_inserts map_to_list) unbounded in
  exec (cleanup map_to_list [5; 25; 15]) c
  = set_items (filter (survives [5; 25; 15]) (items c)) c.
Proof.
  split; [exact map_to_list_enumerates|].
  exact (cleanup_over_ticks map_to_list
           (exec (three_inserts map_to_list) unbounded) [5; 25; 15]
           map_to_list_enumerates).
Defined.

Lemma Set_enforces_item_bound_witness :
  (∀ m : gmap string item, map_to_list m ≡ₚ map_to_list m) ∧
  let c := exec (Set_ map_to_list "a" v40 10 0 ;;;
                 Set_ map_to_list "b" v40 20 0) at_most_two in
  0 < maxItems c ∧
  let c' := exec (Set_ map_to_list "c" v40 30 5) c in
  count c' <= maxItems c' ∧ maxItems c' = maxItems c.
Proof.
  cbv zeta.
  set (c := exec (Set_ map_to_list "a" v40 10 0 ;;;
                  Set_ map_to_list "b" v40 20 0) at_most_two).
  assert (0 < maxItems c) as Hmax by (vm_compute; reflexivity).
  split; [exact map_to_list_enumerates|]. split; [exact Hmax|].
  exact (Set_enforces_item_bound map_to_list c "c" v40 30 5
           map_to_list_enumerates Hmax).
Defined.

Lemma Set_unbounded_inserts_witness :
  let c := exec (three_inserts map_to_list) unbounded in
  maxItems c <= 0 ∧ maxMemory c <= 0 ∧
  let c' := exec (Set_ map_to_list "d" v112 0 1) c in
  items c' = <["d":=Item v112 (1 + effective_ttl 0 c) (estimateSize v112)]> (items c).
Proof.
  cbv zeta. set (c := exec (three_inserts map_to_list) unbounded).
  assert (maxItems c <= 0) as H1 by (vm_compute; discriminate).
  assert (maxMemory c <= 0) as H2 by (vm_compute; discriminate).
  destruct (Set_unbounded_inserts map_to_list c "d" v112 0 1 H1 H2) as [H _].
  split; [exact H1|]. split; [exact H2|exact H].
Defined.

Lemma accounting_kept_without_memory_bound_witness :
  (∀ m : gmap string item, map_to_list m ≡ₚ map_to_list m) ∧
  let c := NewWithMemoryLimit 60 0 in
  maxMemory c <= 0 ∧ accounted c ∧
  accounted (exec (run_ops map_to_list sample_calls) c).
Proof.
  cbv zeta.
  assert (maxMemory (NewWithMemoryLimit 60 0) <= 0) as H1
    by (vm_compute; discriminate).
  assert (accounted (NewWithMemoryLimit 60 0)) as H2
    by (unfold accounted; vm_compute; reflexivity).
  split; [exact map_to_list_enumerates|]. split; [exact H1|]. split; [exact H2|].
  exact (accounting_kept_without_memory_bound map_to_list sample_calls
           (NewWithMemoryLimit 60 0) map_to_list_enumerates H1 H2).
Defined.

Lemma Set_new_key_keeps_accounting_witness :
  (∀ m : gmap string item, map_to_list m ≡ₚ map_to_list m) ∧
  let c := exec (Set_ map_to_list "a" v40 10 0 ;;;
                 Set_ map_to_list "b" v40 20 0) store100 in
  items c !! "c" = None ∧ accounted c ∧
  accounted (exec (Set_ map_to_list "c" v40 30 0) c).
Proof.
  cbv zeta.
  set (c := exec (Set_ map_to_list "a" v40 10 0 ;;;
                  Set_ map_to_list "b" v40 20 0) store100).
  assert (items c !! "c" = None) as H1 by (vm_compute; reflexivity).
  assert (accounted c) as H2 by (unfold accounted; vm_compute; reflexivity).
  split; [exact map_to_list_enumerates|]. split; [exact H1|]. split; [exact H2|].
  exact (Set_new_key_keeps_accounting map_to_list c "c" v40 30 0
           map_to_list_enumerates H1 H2).
Defined.

Lemma evictOldest_removes_count_witness :
  (∀ m : gmap string item, map_to_list m ≡ₚ map_to_list m) ∧
  let c := exec (three_inserts map_to_list) unbounded in
  0 < 2 ∧ count (exec (evictOldest map_to_list 2) c) = Z.max 0 (count c - 2) ∧
  count c <= 7 ∧ 0 < 7 ∧ items (exec (evictOldest map_to_list 7) c) = ∅.
Proof.
  cbv zeta. set (c := exec (three_inserts map_to_list) unbounded).
  assert (0 < 2) as H2 by reflexivity.
  assert (0 < 7) as H7 by reflexivity.
  assert (count c <= 7) as Hc by (vm_compute; discriminate).
  destruct (evictOldest_removes_count map_to_list c 2 map_to_list_enumerates)
    as (_ & Hcount & _).
  destruct (evictOldest_removes_count map_to_list c 7 map_to_list_enumerates)
    as (_ & _ & Hall & _).
  split; [exact map_to_list_enumerates|]. split; [exact H2|].
  split; [exact (Hcount H2)|]. split; [exact Hc|]. split; [exact H7|].
  exact (Hall Hc H7).
Defined.

Lemma evictOldestBySize_frees_witness :
  (∀ m : gmap string item, map_to_list m ≡ₚ map_to_list m) ∧
  let c := exec (three_inserts map_to_list) unbounded in
  well_accounted c ∧ 0 < 50 ∧
  let c' := exec (evictOldestBySize map_to_list 50) c in
  (items c' = ∅ ∨ 50 <= currentSize c - currentSize c') ∧ well_accounted c'.
Proof.
  cbv zeta. set (c := exec (three_inserts map_to_list) unbounded).
  assert (well_accounted c) as Hw by well_accounted_by_computation.
  assert (0 < 50) as Ht by reflexivity.
  destruct (evictOldestBySize_frees map_to_list c 50 map_to_list_enumerates Hw)
    as (_ & Hfree & _ & Hw' & _).
  split; [exact map_to_list_enumerates|]. split; [exact Hw|].
  split; [exact Ht|]. split; [exact (Hfree Ht)|exact Hw'].
Defined.

Lemma estimateSize_modest_witness :
  let v := VPtr (Some (VPtr (Some v40))) in
  modest v ∧ indirections v < 2 ^ 32 ∧
  estimateSize v = estimate_exact v ∧
  0 <= estimateSize v <= 2 ^ 37 + 24 + 8 * indirections v.
Proof.
  cbv zeta.
  assert (modest (VPtr (Some (VPtr (Some v40))))) as Hm
    by (vm_compute; reflexivity).
  assert (indirections (VPtr (Some (VPtr (Some v40)))) < 2 ^ 32) as Hd
    by (vm_compute; reflexivity).
  destruct (estimateSize_modest _ Hm Hd) as (Heq & Hb & _).
  split; [exact Hm|]. split; [exact Hd|]. split; [exact Heq|exact Hb].
Defined.

Lemma combine_injective_without_separator_witness :
  let l := ["SELECT 1"; "conn://x"; "roleA"] in
  Forall no_bar l ∧ combine l = combine l ∧ l = l.
Proof.
  cbv zeta.
  assert (Forall no_bar ["SELECT 1"; "conn://x"; "roleA"]) as H
    by (repeat constructor; discriminate).
  split; [exact H|]. split; [reflexivity|].
  exact (combine_injective_without_separator _ _ H H eq_refl).
Defined.

Lemma NewWithMemoryLimit_round_trip_witness :
  - 2 ^ 43 < 50 < 2 ^ 43 ∧
  maxMemory (NewWithMemoryLimit 60 50) = 50 * 1048576 ∧
  eval (Stats map_to_list 0) (NewWithMemoryLimit 60 50) !! "memory_limit_mb"
  = Some 50.
Proof.
  assert (- 2 ^ 43 < 50 < 2 ^ 43) as H by (split; reflexivity).
  destruct (NewWithMemoryLimit_round_trip map_to_list 60 50 0 H)
    as (H1 & H2 & _).
  split; [exact H|]. split; [exact H1|exact H2].
Defined.

Lemma Delete_undoes_Set_witness :
  let c := exec (Set_ map_to_list "a" v40 10 0) store100 in
  items c !! "b" = None ∧ int64_range (currentSize c) ∧
  atCapacity c = false ∧ overMemory (estimateSize v40) c = false ∧
  exec (Delete "b") (exec (Set_ map_to_list "b" v40 20 0) c) = c.
Proof.
  cbv zeta. set (c := exec (Set_ map_to_list "a" v40 10 0) store100).
  assert (items c !! "b" = None) as H1 by (vm_compute; reflexivity).
  assert (int64_range (currentSize c)) as H2 by (by vm_compute).
  assert (atCapacity c = false) as H3 by (vm_compute; reflexivity).
  assert (overMemory (estimateSize v40) c = false) as H4
    by (vm_compute; reflexivity).
  split; [exact H1|]. split; [exact H2|]. split; [exact H3|]. split; [exact H4|].
  exact (Delete_undoes_Set map_to_list c "b" v40 20 0 H1 H2 H3 H4).
Defined.

Lemma Set_oversized_flushes_witness :
  (∀ m : gmap string item, map_to_list m ≡ₚ map_to_list m) ∧
  let c := exec (Set_ map_to_list "a" v40 10 0 ;;;
                 Set_ map_to_list "b" v40 20 0) store100 in
  well_accounted c ∧ 0 < maxMemory c ∧ maxMemory c < estimateSize v112 ∧
  currentSize c + estimateSize v112 < 2 ^ 63 ∧ items c !! "big" = None ∧
  let c' := exec (Set_ map_to_list "big" v112 0 1) c in
  items c' = {["big" := Item v112 (1 + effective_ttl 0 c) (estimateSize v112)]} ∧
  currentSize c' = estimateSize v112.
Proof.
  cbv zeta.
  set (c := exec (Set_ map_to_list "a" v40 10 0 ;;;
                  Set_ map_to_list "b" v40 20 0) store100).
  assert (well_accounted c) as Hw by well_accounted_by_computation.
  assert (0 < maxMemory c) as H1 by (vm_compute; reflexivity).
  assert (maxMemory c < estimateSize v112) as H2 by (vm_compute; reflexivity).
  assert (currentSize c + estimateSize v112 < 2 ^ 63) as H3
    by (vm_compute; reflexivity).
  assert (items c !! "big" = None) as H4 by (vm_compute; reflexivity).
  split; [exact map_to_list_enumerates|]. split; [exact Hw|].
  split; [exact H1|]. split; [exact H2|]. split; [exact H3|]. split; [exact H4|].
  exact (Set_oversized_flushes map_to_list c "big" v112 0 1
           map_to_list_enumerates Hw H1 H2 H3 H4).
Defined.

(** ** Where the memory bound is not kept *)

(** C6. Eviction does not always go on until the new value fits. On the
    store of [NewWithMemoryLimit(60, 1)], bound 1048576 bytes: (1) with [a]
    and [b] stored at 400024 bytes each, replacing [a] by a value of 704024
    bytes is an insertion that would exceed the bound; [Set] has already
    debited the old [a], so evicting the old [a] alone satisfies the loop,
    [b] stays, and the store ends up holding 1104048 bytes with a running
    total of 704024. (2) After a sweep has removed the expired [a] without
    debiting it, writing [b] of 704024 bytes finds nothing to evict and ends
    with a running total of 1104048, above the bound. *)
Theorem memory_bound_not_kept :
  (let c2 := exec (Set_ map_to_list "a" v400k 10 0 ;;;
                   Set_ map_to_list "b" v400k 20 0) (NewWithMemoryLimit 60 1) in
   let c3 := exec (Set_ map_to_list "a" v704k 10 5) c2 in
   well_accounted c2 ∧ currentSize c2 = 800048 ∧ maxMemory c2 = 1048576 ∧
   estimateSize v704k = 704024 ∧
   overMemory (estimateSize v704k) (exec (discount_existing "a") c2) = true ∧
   dom (items c3) = {["a"; "b"]} ∧
   size_of <$> items c3 !! "a" = Some 704024 ∧
   size_of <$> items c3 !! "b" = Some 400024 ∧
   expiresAt <$> items c3 !! "b" = Some 20 ∧
   stored_bytes (items c3) = 1104048 ∧ maxMemory c3 = 1048576 ∧
   currentSize c3 = 704024) ∧
  (let d1 := exec (Set_ map_to_list "a" v400k 10 0) (NewWithMemoryLimit 60 1) in
   let d2 := exec (cleanup_pass map_to_list 11) d1 in
   let d3 := exec (Set_ map_to_list "b" v704k 20 12) d2 in
   well_accounted d1 ∧ items d2 = ∅ ∧ currentSize d2 = 400024 ∧
   overMemory (estimateSize v704k) (exec (discount_existing "b") d2) = true ∧
   dom (items d3) = {["b"]} ∧
   stored_bytes (items d3) = 704024 ∧
   maxMemory d3 = 1048576 ∧ currentSize d3 = 1104048).
Proof.
  cbv zeta. split.
  - split; [well_accounted_by_computation|].
    repeat split; vm_compute; reflexivity.
  - split; [well_accounted_by_computation|].
    repeat split; vm_compute; reflexivity.
Qed.
